(** * Windowed, group-aware co-occurrence counts over a CSR matrix

    A shallow embedding of the feature-extraction notebook
    ([5_feature_extraction.ipynb]): the one-hot encoding of the word
    stream, [is_same_after_shift], [csr_shift], [csr_cum_sum] and
    [extract_features], together with the properties of the row shift
    and of the accumulated counts.

    Conventions.
    - A Python call either returns or raises: [result].
    - Words and company names are strings ([dtype=object] arrays of [str]).
    - Stored values are [np.int64]: [Z] with the wrap-around of the
      machine addition and multiplication written out ([wrap64]).
    - Row pointers and column indices are array offsets: [nat]. *)

From Stdlib Require Import List ZArith Lia Bool Arith.
From Stdlib Require String.
Import ListNotations.
Import String.StringSyntax.

Abbreviation string := String.string.
Abbreviation EmptyString := String.EmptyString.

Open Scope nat_scope.

(** ** Python results *)

Inductive exn : Type :=
| IndexError
| ValueError.

Inductive result (A : Type) : Type :=
| Ok (a : A)
| Raise (e : exn).

Arguments Ok {A} a.
Arguments Raise {A} e.

Definition bind {A B : Type} (r : result A) (k : A -> result B) : result B :=
  match r with
  | Ok a => k a
  | Raise e => Raise e
  end.

Notation "x <- r ;; k" := (bind r (fun x => k))
  (at level 61, r at next level, right associativity).

(** ** Machine integers *)

Definition wrap64 (z : Z) : Z := ((z + 2 ^ 63) mod 2 ^ 64 - 2 ^ 63)%Z.
Definition add64 (a b : Z) : Z := wrap64 (a + b).
Definition mul64 (a b : Z) : Z := wrap64 (a * b).

(** ** Arrays *)

(** [l[lo:hi]] for [0 <= lo], [0 <= hi]. *)
Definition slice {A : Type} (l : list A) (lo hi : nat) : list A :=
  firstn (hi - lo) (skipn lo l).

(** [l[-k]] for [k >= 1]; an index outside the array raises. *)
Definition neg_index (l : list nat) (k : nat) : result nat :=
  if (1 <=? k) && (k <=? length l) then Ok (nth (length l - k) l 0)
  else Raise IndexError.

(** [l[i]] for [0 <= i]. *)
Definition index (l : list nat) (i : nat) : result nat :=
  if i <? length l then Ok (nth i l 0) else Raise IndexError.

(** [np.delete(l, -1)]: the array without its last element. *)
Definition np_delete_last {A : Type} (l : list A) : result (list A) :=
  match l with
  | [] => Raise IndexError
  | _ => Ok (removelast l)
  end.

(** [np.cumsum], with the running total made explicit. *)
Fixpoint np_cumsum (acc : nat) (l : list nat) : list nat :=
  match l with
  | [] => []
  | x :: t => (acc + x) :: np_cumsum (acc + x) t
  end.

(** [np.roll(v, shift)] on a one-dimensional array: the offset is reduced
    modulo the length, the last [offset] elements come first. *)
Definition np_roll {A : Type} (v : list A) (shift : Z) : list A :=
  match v with
  | [] => []
  | _ =>
      let n := length v in
      let offset := Z.to_nat (shift mod Z.of_nat n) in
      skipn (n - offset) v ++ firstn (n - offset) v
  end.

(** [(vector == np.roll(vector, shift)).astype(np.int64)] *)
Definition is_same_after_shift (vector : list string) (shift : Z) : list Z :=
  map (fun p => if String.eqb (fst p) (snd p) then 1%Z else 0%Z)
      (combine vector (np_roll vector shift)).

(** ** Compressed sparse row matrices *)

Record csr_matrix : Type := mk_csr {
  nrows : nat;
  ncols : nat;
  indptr : list nat;
  indices : list nat;
  data : list Z
}.

Definition shape (m : csr_matrix) : nat * nat := (nrows m, ncols m).

(** [m.nnz]: the number of stored entries, read off the last row pointer. *)
Definition nnz (m : csr_matrix) : nat := last (indptr m) 0.

(** The stored entries of row [i], as (column, value) pairs. *)
Definition getrow (m : csr_matrix) (i : nat) : list (nat * Z) :=
  let lo := nth i (indptr m) 0 in
  let hi := nth (S i) (indptr m) 0 in
  combine (slice (indices m) lo hi) (slice (data m) lo hi).

(** The value a row holds at column [c]; stored duplicates add up. *)
Definition row_entry (r : list (nat * Z)) (c : nat) : Z :=
  fold_right (fun e acc => if fst e =? c then (snd e + acc)%Z else acc) 0%Z r.

(** [m[i, c]] *)
Definition csr_get (m : csr_matrix) (i c : nat) : Z := row_entry (getrow m i) c.

(** The matrix that stores the given rows one after the other. *)
Definition csr_of_rows (n k : nat) (rows : list (list (nat * Z))) : csr_matrix :=
  mk_csr n k
         (0 :: np_cumsum 0 (map (@length (nat * Z)) rows))
         (flat_map (map fst) rows)
         (flat_map (map snd) rows).

(** The non-zero entries of a dense row, in column order. *)
Definition sparse_row (k : nat) (f : nat -> Z) : list (nat * Z) :=
  filter (fun e => negb (snd e =? 0)%Z) (map (fun c => (c, f c)) (seq 0 k)).

(** The canonical CSR storage of the [n] x [k] matrix with entries [f i c]:
    this is how the results of scipy's entrywise operations are held
    (sorted columns, no stored zero). *)
Definition csr_of_dense (n k : nat) (f : nat -> nat -> Z) : csr_matrix :=
  csr_of_rows n k (map (fun i => sparse_row k (f i)) (seq 0 n)).

(** [csr_matrix(shape, dtype=...)]: the empty matrix. *)
Definition csr_zeros (sh : nat * nat) : csr_matrix :=
  mk_csr (fst sh) (snd sh) (repeat 0 (fst sh + 1)) [] [].

Fixpoint nondecreasing (l : list nat) : bool :=
  match l with
  | a :: t =>
      match t with
      | b :: _ => (a <=? b) && nondecreasing t
      | [] => true
      end
  | [] => true
  end.

(** [m.prune()]: drop the storage behind the last row pointer. *)
Definition prune (m : csr_matrix) : csr_matrix :=
  mk_csr (nrows m) (ncols m) (indptr m)
         (firstn (nnz m) (indices m)) (firstn (nnz m) (data m)).

(** [m.check_format()] as scipy runs it: the cheap checks, [prune], then
    the full check of the column range and of the row pointers. *)
Definition check_format (m : csr_matrix) : result csr_matrix :=
  if negb (length (indptr m) =? nrows m + 1) then Raise ValueError
  else if negb (nth 0 (indptr m) 0 =? 0) then Raise ValueError
  else if negb (length (indices m) =? length (data m)) then Raise ValueError
  else if length (indices m) <? nnz m then Raise ValueError
  else
    let y := prune m in
    if (0 <? nnz y)
       && (negb (forallb (fun c => c <? ncols y) (indices y))
           || negb (nondecreasing (indptr y)))
    then Raise ValueError
    else Ok y.

(** The well-formedness of a stored matrix: row pointers start at 0, do
    not decrease and end at the length of the storage; column indices are
    within range and sorted within each row. *)
Definition well_formed (m : csr_matrix) : bool :=
  (length (indptr m) =? nrows m + 1)
  && (nth 0 (indptr m) 0 =? 0)
  && nondecreasing (indptr m)
  && (nnz m =? length (indices m))
  && (length (indices m) =? length (data m))
  && forallb (fun c => c <? ncols m) (indices m)
  && forallb (fun i => nondecreasing (map fst (getrow m i))) (seq 0 (nrows m)).

(** ** The notebook's functions *)

(** [csr_shift(csr, down)] *)
Definition csr_shift (csr : csr_matrix) (down : bool) : result csr_matrix :=
  if down then
    (* add an empty row at the beginning, drop the last row *)
    let indptr' := 0 :: removelast (indptr csr) in
    p_last <- neg_index (indptr csr) 1 ;;
    p_prev <- neg_index (indptr csr) 2 ;;
    (* if the last row has values, drop them from index and data arrays *)
    if negb (p_last =? p_prev) then
      indices' <- np_delete_last (indices csr) ;;
      data' <- np_delete_last (data csr) ;;
      check_format (mk_csr (nrows csr) (ncols csr) indptr' indices' data')
    else
      check_format
        (mk_csr (nrows csr) (ncols csr) indptr' (indices csr) (data csr))
  else
    (* drop the first row, subtract its pointer from the remaining ones *)
    p1 <- index (indptr csr) 1 ;;
    let indptr0 := 0 :: map (fun p => p - p1) (skipn 2 (indptr csr)) in
    (* add an empty row at the end *)
    let indptr' := indptr0 ++ [last indptr0 0] in
    (* if the first row had values, drop them from index and data arrays *)
    let number_of_values_to_drop := p1 in
    if negb (number_of_values_to_drop =? 0) then
      check_format
        (mk_csr (nrows csr) (ncols csr) indptr'
                (skipn number_of_values_to_drop (indices csr))
                (skipn number_of_values_to_drop (data csr)))
    else
      check_format
        (mk_csr (nrows csr) (ncols csr) indptr' (indices csr) (data csr)).

(** [a + b] on matrices of one shape. *)
Definition csr_add (a b : csr_matrix) : result csr_matrix :=
  if (nrows a =? nrows b) && (ncols a =? ncols b) then
    Ok (csr_of_dense (nrows a) (ncols a)
          (fun i c => add64 (csr_get a i c) (csr_get b i c)))
  else Raise ValueError.

(** [csr_matrix(col).T.multiply(m)]: the column [col] times the rows of
    [m]; a one-element operand is broadcast as scipy does. *)
Definition col_multiply (col : list Z) (m : csr_matrix) : result csr_matrix :=
  if length col =? nrows m then
    Ok (csr_of_dense (nrows m) (ncols m)
          (fun i c => mul64 (nth i col 0%Z) (csr_get m i c)))
  else if length col =? 1 then
    Ok (csr_of_dense (nrows m) (ncols m)
          (fun i c => mul64 (nth 0 col 0%Z) (csr_get m i c)))
  else if nrows m =? 1 then
    Ok (csr_of_dense (length col) (ncols m)
          (fun i c => mul64 (nth i col 0%Z) (csr_get m 0 c)))
  else Raise ValueError.

(** The body of the loop [for i in range(1, window_size + 1)], with
    [steps] iterations left. *)
Fixpoint cum_sum_loop (company_vector : list string) (above : bool)
         (steps : nat) (i : Z) (shifted_csr cumsum_scr : csr_matrix)
  : result csr_matrix :=
  match steps with
  | O => Ok cumsum_scr
  | S steps' =>
      let same_company :=
        is_same_after_shift company_vector (i * (if above then 1 else -1))%Z in
      shifted_csr' <- csr_shift shifted_csr above ;;
      masked <- col_multiply same_company shifted_csr' ;;
      cumsum_scr' <- csr_add cumsum_scr masked ;;
      cum_sum_loop company_vector above steps' (i + 1)%Z shifted_csr' cumsum_scr'
  end.

(** [csr_cum_sum(onehot_csr, company_vector, window_size, above)] *)
Definition csr_cum_sum (onehot_csr : csr_matrix) (company_vector : list string)
           (window_size : Z) (above : bool) : result csr_matrix :=
  cum_sum_loop company_vector above (Z.to_nat window_size) 1%Z
               onehot_csr (csr_zeros (shape onehot_csr)).

(** [hstack([a, b])] *)
Definition hstack (a b : csr_matrix) : result csr_matrix :=
  if nrows a =? nrows b then
    Ok (csr_of_dense (nrows a) (ncols a + ncols b)
          (fun i c => if c <? ncols a then csr_get a i c
                      else csr_get b i (c - ncols a)))
  else Raise ValueError.

(** [extract_features(onehot_csr, company_vec, window_size)] *)
Definition extract_features (onehot_csr : csr_matrix) (company_vec : list string)
           (window_size : Z) : result csr_matrix :=
  above <- csr_cum_sum onehot_csr company_vec window_size true ;;
  below <- csr_cum_sum onehot_csr company_vec window_size false ;;
  hstack above below.

(** ** The encoder *)

(** The code of a word in [{val: i for i, val in enumerate(cats)}],
    the table by which the encoder of the notebook's time (scikit-learn
    up to 1.3) encodes an array of objects, counting from [i]: a later
    occurrence of a label replaces an earlier one. *)
Fixpoint table_lookup (cats : list string) (i : nat) (w : string) : option nat :=
  match cats with
  | [] => None
  | x :: t =>
      match table_lookup t (S i) w with
      | Some j => Some j
      | None => if String.eqb x w then Some i else None
      end
  end.

(** [OneHotEncoder(categories=[cats], handle_unknown='ignore',
    dtype=np.int64).fit_transform(words)]: a word that is no category
    gets an empty row. The encoder refuses an empty sample; and as it
    puts the first category, [categories_[0][0]], in the place of every
    unknown word before it masks them out, a vocabulary without any
    category makes it raise [IndexError]. *)
Definition fit_transform (cats words : list string) : result csr_matrix :=
  match words with
  | [] => Raise ValueError
  | _ =>
      match cats with
      | [] => Raise IndexError
      | _ =>
          let codes := map (table_lookup cats 0) words in
          let mask :=
            map (fun o => match o with Some _ => 1 | None => 0 end) codes in
          let indices :=
            flat_map (fun o => match o with Some c => [c] | None => [] end)
                     codes in
          Ok (mk_csr (length words) (length cats)
                     (0 :: np_cumsum 0 mask) indices
                     (map (fun _ => 1%Z) indices))
      end
  end.

(** The whole extraction, from the word stream. *)
Definition features (cats words company_vec : list string) (window_size : Z)
  : result csr_matrix :=
  words_enc <- fit_transform cats words ;;
  extract_features words_enc company_vec window_size.

(** The dense view of one column, [m[:, c].toarray().flatten()]. *)
Definition column (m : csr_matrix) (c : nat) : list Z :=
  map (fun i => csr_get m i c) (seq 0 (nrows m)).

(** ** Vocabulary of the statements *)

(** [well_formed], spelled out. *)
Record WF (m : csr_matrix) : Prop := mk_WF {
  wf_len : length (indptr m) = nrows m + 1;
  wf_zero : nth 0 (indptr m) 0 = 0;
  wf_mono : forall i j, i <= j -> j <= nrows m ->
                        nth i (indptr m) 0 <= nth j (indptr m) 0;
  wf_nnz : nth (nrows m) (indptr m) 0 = length (indices m);
  wf_data : length (indices m) = length (data m);
  wf_cols : Forall (fun c => c < ncols m) (indices m);
  wf_sorted : forall i, i < nrows m ->
                        nondecreasing (map fst (getrow m i)) = true
}.

Arguments wf_len {m} _.
Arguments wf_zero {m} _.
Arguments wf_mono {m} _ _ _ _ _.
Arguments wf_nnz {m} _.
Arguments wf_data {m} _.
Arguments wf_cols {m} _.
Arguments wf_sorted {m} _ _ _.

(** The row pointers [csr_shift] builds, downwards and upwards. *)
Definition indptr_down (p : list nat) : list nat := 0 :: removelast p.

Definition indptr_up (p : list nat) : list nat :=
  let q := 0 :: map (fun x => x - nth 1 p 0) (skipn 2 p) in
  q ++ [last q 0].

(** The storage [csr_shift] keeps: without the last row (downwards),
    without the first row (upwards). *)
Definition shifted_down (m : csr_matrix) : csr_matrix :=
  let q := nth (nrows m - 1) (indptr m) 0 in
  mk_csr (nrows m) (ncols m) (indptr_down (indptr m))
         (firstn q (indices m)) (firstn q (data m)).

Definition shifted_up (m : csr_matrix) : csr_matrix :=
  let p1 := nth 1 (indptr m) 0 in
  let q := nth (nrows m) (indptr m) 0 - p1 in
  mk_csr (nrows m) (ncols m) (indptr_up (indptr m))
         (firstn q (skipn p1 (indices m))) (firstn q (skipn p1 (data m))).

(** The row whose entries fall off the matrix, and the row left empty. *)
Definition boundary_row (m : csr_matrix) (down : bool) : nat :=
  if down then nrows m - 1 else 0.

Definition vacated_row (m : csr_matrix) (down : bool) : nat :=
  if down then 0 else nrows m - 1.

(** Row [i] of the shifted matrix, read from the rows of [m]. *)
Definition shifted_row (m : csr_matrix) (down : bool) (i : nat)
  : list (nat * Z) :=
  if down then
    match i with
    | O => []
    | S j => getrow m j
    end
  else if S i <? nrows m then getrow m (S i) else [].

(** [k] shifts in a row, as the loop of [csr_cum_sum] applies them. *)
Fixpoint iter_shift (m : csr_matrix) (down : bool) (k : nat) : csr_matrix :=
  match k with
  | O => m
  | S k' =>
      let y := iter_shift m down k' in
      if down then shifted_down y else shifted_up y
  end.

(** The position [d] places before ([earlier]) or after position [i] in a
    sequence of length [n], when there is one. *)
Definition neighbour (earlier : bool) (n i d : nat) : option nat :=
  if earlier then (if d <=? i then Some (i - d) else None)
  else (if i + d <? n then Some (i + d) else None).

(** What the step at distance [d] adds to the count of row [i], column [c]:
    the entry of the neighbour at that distance when it is of the same
    company. *)
Definition step_term (m : csr_matrix) (company : list string)
           (earlier : bool) (d i c : nat) : Z :=
  match neighbour earlier (nrows m) i d with
  | Some j =>
      if String.eqb (nth i company EmptyString) (nth j company EmptyString)
      then csr_get m j c else 0%Z
  | None => 0%Z
  end.

(** The sum of the steps at distances [1 .. w]. *)
Fixpoint window_sum (m : csr_matrix) (company : list string)
         (earlier : bool) (w i c : nat) : Z :=
  match w with
  | O => 0%Z
  | S w' => (window_sum m company earlier w' i c
             + step_term m company earlier w i c)%Z
  end.

(** The matrix [fit_transform] builds for a non-empty word stream. *)
Definition encoded (cats words : list string) : csr_matrix :=
  let codes := map (table_lookup cats 0) words in
  let mask := map (fun o => match o with Some _ => 1 | None => 0 end) codes in
  let indices :=
    flat_map (fun o => match o with Some c => [c] | None => [] end) codes in
  mk_csr (length words) (length cats)
         (0 :: np_cumsum 0 mask) indices (map (fun _ => 1%Z) indices).

(** The rows of [encoded]: one entry for a word of the vocabulary. *)
Definition encoded_row (cats : list string) (w : string) : list (nat * Z) :=
  match table_lookup cats 0 w with
  | Some c => [(c, 1%Z)]
  | None => []
  end.

(** The signed distance [i * [-1, 1][above]]. *)
Definition signed (earlier : bool) (d : nat) : Z :=
  (Z.of_nat d * (if earlier then 1 else -1))%Z.

(** Every entry of an indicator matrix is 0 or 1. *)
Definition indicator (m : csr_matrix) : Prop :=
  forall i c, i < nrows m -> csr_get m i c = 0%Z \/ csr_get m i c = 1%Z.

(** How many of the distances [1 .. w] have a neighbour of position [i]
    within a sequence of length [n]. *)
Definition reach (earlier : bool) (n i w : nat) : nat :=
  if earlier then Nat.min w i else Nat.min w (n - 1 - i).

(** The entry of the assembled output at row [i], column [col], for a
    window of [w] positions: the first [K] columns count earlier
    positions, the last [K] later ones. *)
Definition count_entry (m : csr_matrix) (company : list string) (w i col : nat)
  : Z :=
  if col <? ncols m
  then window_sum m company true w i col
  else window_sum m company false w i (col - ncols m).

Definition feature_entry (cats words company : list string) (w i col : nat)
  : Z :=
  count_entry (encoded cats words) company w i col.

(** A one-hot matrix: well-formed, at most one entry per row, every stored
    value 1. *)
Definition one_hot (m : csr_matrix) : bool :=
  well_formed m
  && forallb (fun v => (v =? 1)%Z) (data m)
  && forallb (fun i => length (getrow m i) <=? 1) (seq 0 (nrows m)).

(** A company vector in which every company occupies one run, checked
    position by position. *)
Definition contiguousb (company : list string) : bool :=
  forallb
    (fun i =>
       forallb
         (fun k =>
            implb (String.eqb (nth i company EmptyString)
                              (nth k company EmptyString))
                  (forallb
                     (fun j => String.eqb (nth j company EmptyString)
                                          (nth i company EmptyString))
                     (seq i (k - i + 1))))
         (seq i (length company - i)))
    (seq 0 (length company)).

(** ** The mask and the accumulator as the specification words them *)

(** Position [i] is one of the first ([earlier]) or last [d] positions of a
    sequence of length [n]: the rotation by [d] wraps around there. *)
Definition wrapped (earlier : bool) (n d i : nat) : bool :=
  if earlier then i <? d else n - d <=? i.

(** The rotated comparison with the wrapped-around boundary positions
    forced to false. *)
Definition same_group_at_distance (group_vector : list string)
           (distance : nat) (earlier : bool) : list Z :=
  map (fun p => if wrapped earlier (length group_vector) distance (fst p)
                then 0%Z else snd p)
      (combine (seq 0 (length group_vector))
               (is_same_after_shift group_vector (signed earlier distance))).

(** The accumulator with that mask: for [d = 1 .. window_size], shift the
    working copy, mask it for distance [d], add it to the running total. *)
Fixpoint accumulate_loop (group_vector : list string) (earlier : bool)
         (steps d : nat) (working total : csr_matrix) : result csr_matrix :=
  match steps with
  | O => Ok total
  | S steps' =>
      working' <- csr_shift working earlier ;;
      masked <- col_multiply
                  (same_group_at_distance group_vector d earlier) working' ;;
      total' <- csr_add total masked ;;
      accumulate_loop group_vector earlier steps' (S d) working' total'
  end.

Definition accumulate (indicator_matrix : csr_matrix)
           (group_vector : list string) (window_size : Z) (earlier : bool)
  : result csr_matrix :=
  accumulate_loop group_vector earlier (Z.to_nat window_size) 1
                  indicator_matrix (csr_zeros (shape indicator_matrix)).

(** [d] calls of [csr_shift] in a row. *)
Fixpoint csr_shift_n (m : csr_matrix) (down : bool) (d : nat)
  : result csr_matrix :=
  match d with
  | O => Ok m
  | S d' => y <- csr_shift_n m down d' ;; csr_shift y down
  end.

(** The position [d] places before ([earlier]) or after position [i]. *)
Definition at_distance (earlier : bool) (i d : nat) : nat :=
  if earlier then i - d else i + d.

(** ** The direct scan of one group *)

(** Position [j] lies within the [w] positions before ([earlier]) or after
    position [i]: [1 <= i - j <= w], respectively [1 <= j - i <= w]. *)
Definition in_window (earlier : bool) (w i j : nat) : bool :=
  if earlier then (j <? i) && (i - j <=? w)
  else (i <? j) && (j - i <=? w).

(** The number of positions of [labels] in the window of position [i]
    that bear the label [c]. *)
Definition direct_count (labels : list string) (w : nat) (earlier : bool)
           (c : string) (i : nat) : Z :=
  Z.of_nat
    (length
       (filter (fun j => in_window earlier w i j
                         && String.eqb (nth j labels EmptyString) c)
               (seq 0 (length labels)))).

Definition direct_scan (labels : list string) (w : nat) (earlier : bool)
           (c : string) : list Z :=
  map (direct_count labels w earlier c) (seq 0 (length labels)).

(** [xs[company_vector == g]] *)
Definition restrict {A : Type} (company_vector : list string) (g : string)
           (xs : list A) : list A :=
  map snd (filter (fun p => String.eqb (fst p) g) (combine company_vector xs)).

(** The tokens of each company occupy one contiguous run of positions. *)
Definition contiguous (company_vector : list string) : Prop :=
  forall i j k, i <= j -> j <= k -> k < length company_vector ->
    nth i company_vector EmptyString = nth k company_vector EmptyString ->
    nth j company_vector EmptyString = nth i company_vector EmptyString.

(** The column of the output that counts category [c] in one direction. *)
Definition feature_column (k : nat) (earlier : bool) (c : nat) : nat :=
  if earlier then c else k + c.

(** The number of positions [j < n] in the window of position [i] that
    satisfy [q]. *)
Definition window_count (earlier : bool) (n w i : nat) (q : nat -> bool)
  : nat :=
  length (filter (fun j => in_window earlier w i j && q j) (seq 0 n)).

(** Position [j] bears the label [c] and belongs to the company of
    position [i]. *)
Definition same_group_label (words company : list string) (c : string)
           (i j : nat) : bool :=
  String.eqb (nth i company EmptyString) (nth j company EmptyString)
  && String.eqb (nth j words EmptyString) c.

(** The first position of a run of one company, and the last one. *)
Definition first_of_group (company : list string) (i : nat) : Prop :=
  i = 0 \/ nth (i - 1) company EmptyString <> nth i company EmptyString.

Definition last_of_group (company : list string) (i : nat) : Prop :=
  S i = length company
  \/ nth (S i) company EmptyString <> nth i company EmptyString.

(** The length of the run of [g] at the head of [t]. *)
Fixpoint run_length (g : string) (t : list string) : nat :=
  match t with
  | [] => 0
  | y :: t' => if String.eqb y g then S (run_length g t') else 0
  end.

(** ** Sample inputs *)

Local Open Scope string_scope.

Definition sample_cats : list string := ["a"; "b"; "c"].
Definition sample_words : list string := ["a"; "b"; "c"; "a"].
Definition sample_company : list string := ["G"; "G"; "G"; "G"].

(** [sample_words] encoded against [sample_cats]. *)
Definition sample_onehot : csr_matrix :=
  mk_csr 4 3 [0; 1; 2; 3; 4] [0; 1; 2; 0] [1; 1; 1; 1]%Z.

(** Two companies of three words each. *)
Definition two_words : list string := ["a"; "b"; "a"; "a"; "b"; "a"].
Definition two_company : list string := ["G"; "G"; "G"; "H"; "H"; "H"].

(** A vocabulary that lists the label [a] twice, and a word stream. *)
Definition dup_cats : list string := ["a"; "b"; "a"].
Definition dup_words : list string := ["a"; "c"; "b"].

(** A word stream with a word, [z], that is no category of [sample_cats]. *)
Definition unknown_words : list string := ["a"; "z"; "b"].


(** [two_words] encoded against [sample_cats]. *)
Definition two_onehot : csr_matrix :=
  mk_csr 6 3 [0; 1; 2; 3; 4; 5; 6] [0; 1; 0; 0; 1; 0] [1; 1; 1; 1; 1; 1]%Z.

Local Close Scope string_scope.

(** ** The notebook's spot checks *)

(** The sum of an [int64] array. *)
Definition sum64 (l : list Z) : Z := fold_right add64 0%Z l.

Definition sub64 (a b : Z) : Z := wrap64 (a - b).

(** [m.sum()]: the sum of the stored values, row after row. *)
Definition csr_sum (m : csr_matrix) : Z :=
  sum64 (flat_map (fun i => map snd (getrow m i)) (seq 0 (nrows m))).

(** [m.sum(axis=0)[0, c]]: the total of column [c]. *)
Definition column_sum (m : csr_matrix) (c : nat) : Z := sum64 (column m c).

(** [spot_check_onehot(index)], on the encoder's categories, the word
    array and its encoding; the printed word, the two counts and the
    verdict are returned. *)
Definition spot_check_onehot (cats words : list string) (words_enc : csr_matrix)
           (index : nat) : result (string * Z * Z * bool) :=
  if (index <? length cats) && (index <? ncols words_enc) then
    let word := nth index cats EmptyString in
    let count1 := column_sum words_enc index in
    let count2 :=
      sum64 (map (fun w => if String.eqb w word then 1%Z else 0%Z) words) in
    Ok (word, count1, count2, (count1 =? count2)%Z)
  else Raise IndexError.

(** The totals [spot_check_shift(csr_init, csr_shifted)] prints. *)
Definition spot_check_shift (csr_init csr_shifted : csr_matrix) : Z * Z :=
  (csr_sum csr_init, csr_sum csr_shifted).

(** [np.cumsum] of an [int64] array, with the running total made
    explicit. *)
Fixpoint cumsum64 (acc : Z) (l : list Z) : list Z :=
  match l with
  | [] => []
  | x :: t => add64 acc x :: cumsum64 (add64 acc x) t
  end.

(** [l[::step]] for [step = [-1, 1][above]]. *)
Definition stride {A : Type} (above : bool) (l : list A) : list A :=
  if above then l else rev l.

(** [np.put(l, range(k), 0)]: an index outside the array raises. *)
Definition np_put_zeros (l : list Z) (k : nat) : result (list Z) :=
  if k <=? length l then Ok (repeat 0%Z k ++ skipn k l) else Raise IndexError.

(** [l[rolled_over] = 0] for [rolled_over = [-1, 0][above]]. *)
Definition set_rolled_over (above : bool) (l : list Z) : result (list Z) :=
  match l with
  | [] => Raise IndexError
  | _ => Ok (if above then 0%Z :: tl l else removelast l ++ [0%Z])
  end.

(** [xs[company_vector == company]]: the mask has to have the length of
    the array. *)
Definition bool_index {A : Type} (company_vector : list string)
           (company : string) (xs : list A) : result (list A) :=
  if length xs =? length company_vector
  then Ok (restrict company_vector company xs)
  else Raise IndexError.

(** [l.index(x)], counting from [i]. *)
Fixpoint py_index (l : list string) (i : nat) (x : string) : result nat :=
  match l with
  | [] => Raise ValueError
  | y :: t => if String.eqb y x then Ok i else py_index t (S i) x
  end.

(** The counts [spot_check] calculates directly (its [array1]) from the
    comparison of the company's words with the feature. *)
Definition direct_counts (is_target_feature : list bool) (window_size : Z)
           (above : bool) : result (list Z) :=
  let cumsum :=
    cumsum64 0 (map (fun b : bool => if b then 1%Z else 0%Z)
                    (stride above is_target_feature)) in
  cumsum_tail <- np_put_zeros (np_roll cumsum window_size)
                              (Z.to_nat window_size) ;;
  let rolling_sum :=
    map (fun p => sub64 (fst p) (snd p)) (combine cumsum cumsum_tail) in
  set_rolled_over above (stride above (np_roll rolling_sum 1)).

(** [spot_check(sparse, word_vector, company_vector, features,
    window_size, above, company, feature)], with the company and the
    feature as they stand after the sampling lines. *)
Definition spot_check (sparse : csr_matrix)
           (word_vector company_vector features : list string)
           (window_size : Z) (above : bool) (company feature : string)
  : result (list Z * list Z * list bool) :=
  group_words <- bool_index company_vector company word_vector ;;
  let is_target_feature := map (fun w => String.eqb w feature) group_words in
  array1 <- direct_counts is_target_feature window_size above ;;
  col <- py_index features 0 feature ;;
  (* the mask selects the rows at its true positions, which have to be
     rows of the matrix *)
  let rows :=
    filter (fun j => String.eqb (nth j company_vector EmptyString) company)
           (seq 0 (length company_vector)) in
  if forallb (fun j => j <? nrows sparse) rows && (col <? ncols sparse) then
    let array2 := map (fun j => csr_get sparse j col) rows in
    let not_matching :=
      map (fun p => negb (fst p =? snd p)%Z) (combine array2 array1) in
    Ok (array1, array2, not_matching)
  else Raise IndexError.


(** [X[:, lo:hi]] for [lo <= hi <= ncols]. *)
Definition col_slice (m : csr_matrix) (lo hi : nat) : csr_matrix :=
  csr_of_dense (nrows m) (hi - lo) (fun i c => csr_get m i (lo + c)).

(** The number of [true] among the first [k] elements. *)
Definition prefix_count (xs : list bool) (k : nat) : nat :=
  length (filter (fun j => nth j xs false) (seq 0 k)).

(** The part of [direct_counts] between the two strides: the running
    totals, their tail [window_size] places back, the difference, rolled
    by one place. *)
Definition rolled_sums (xs : list bool) (window_size : Z) : result (list Z) :=
  let cumsum :=
    cumsum64 0 (map (fun b : bool => if b then 1%Z else 0%Z) xs) in
  cumsum_tail <- np_put_zeros (np_roll cumsum window_size)
                              (Z.to_nat window_size) ;;
  Ok (np_roll (map (fun p => sub64 (fst p) (snd p))
                   (combine cumsum cumsum_tail)) 1).

(** * Properties *)

(** ** Arrays *)

Lemma np_delete_last_Ok {A : Type} (l : list A) :
  0 < length l -> np_delete_last l = Ok (removelast l).
Proof.
  destruct l; simpl; [lia | reflexivity].
Qed.

Lemma last_nth (l : list nat) : last l 0 = nth (length l - 1) l 0.
Proof.
  induction l as [|a [|b t] IH]; try reflexivity.
  change (last (a :: b :: t) 0) with (last (b :: t) 0). rewrite IH.
  simpl. now rewrite Nat.sub_0_r.
Qed.

Lemma nth_removelast (l : list nat) (i : nat) :
  S i < length l -> nth i (removelast l) 0 = nth i l 0.
Proof.
  intros H. rewrite removelast_firstn_len, nth_firstn.
  destruct (Nat.ltb_spec i (pred (length l))); [reflexivity | lia].
Qed.

Lemma nth_map_sub (l : list nat) (a i : nat) :
  nth i (map (fun p => p - a) l) 0 = nth i l 0 - a.
Proof.
  change 0 with ((fun p => p - a) 0) at 1. apply map_nth.
Qed.

Lemma slice_firstn {A : Type} (l : list A) (q lo hi : nat) :
  hi <= q -> slice (firstn q l) lo hi = slice l lo hi.
Proof.
  intros H. unfold slice. rewrite skipn_firstn_comm, firstn_firstn.
  f_equal. lia.
Qed.

Lemma slice_skipn {A : Type} (l : list A) (a lo hi : nat) :
  slice (skipn a l) lo hi = slice l (a + lo) (a + hi).
Proof.
  unfold slice. rewrite skipn_skipn. f_equal; [lia | f_equal; lia].
Qed.

Lemma slice_empty {A : Type} (l : list A) (lo hi : nat) :
  hi <= lo -> slice l lo hi = [].
Proof.
  intros H. unfold slice. replace (hi - lo) with 0 by lia. reflexivity.
Qed.

Lemma slice_length {A : Type} (l : list A) (lo hi : nat) :
  hi <= length l -> length (slice l lo hi) = hi - lo.
Proof.
  intros H. unfold slice. rewrite length_firstn, length_skipn. lia.
Qed.

Lemma slice_app_r {A : Type} (l1 l2 : list A) (lo hi : nat) :
  slice (l1 ++ l2) (length l1 + lo) (length l1 + hi) = slice l2 lo hi.
Proof.
  unfold slice. rewrite skipn_app, skipn_all2 by lia.
  simpl. f_equal; [lia | f_equal; lia].
Qed.

Lemma slice_app_l {A : Type} (l1 l2 : list A) :
  slice (l1 ++ l2) 0 (length l1) = l1.
Proof.
  unfold slice. simpl. rewrite Nat.sub_0_r, firstn_app, firstn_all.
  replace (length l1 - length l1) with 0 by lia. simpl. apply app_nil_r.
Qed.

Lemma Forall_firstn {A : Type} (P : A -> Prop) (l : list A) (n : nat) :
  Forall P l -> Forall P (firstn n l).
Proof.
  intros H. rewrite <- (firstn_skipn n l) in H.
  apply Forall_app in H. tauto.
Qed.

Lemma Forall_skipn {A : Type} (P : A -> Prop) (l : list A) (n : nat) :
  Forall P l -> Forall P (skipn n l).
Proof.
  intros H. rewrite <- (firstn_skipn n l) in H.
  apply Forall_app in H. tauto.
Qed.

(** ** Row pointers *)

Lemma nondecreasing_step (l : list nat) :
  nondecreasing l = true <->
  (forall i, S i < length l -> nth i l 0 <= nth (S i) l 0).
Proof.
  induction l as [|a [|b t] IH].
  - simpl. split; [intros _ i Hi; lia | reflexivity].
  - simpl. split; [intros _ i Hi; lia | reflexivity].
  - change (nondecreasing (a :: b :: t))
      with ((a <=? b) && nondecreasing (b :: t)).
    rewrite andb_true_iff, IH, Nat.leb_le. split.
    + intros [Hab Ht] [|i] Hi; [exact Hab|].
      apply (Ht i). simpl in *. lia.
    + intros H. split; [apply (H 0); simpl; lia|].
      intros i Hi. apply (H (S i)). simpl in *. lia.
Qed.

Lemma step_monotone (l : list nat) :
  (forall i, S i < length l -> nth i l 0 <= nth (S i) l 0) ->
  forall i j, i <= j -> j < length l -> nth i l 0 <= nth j l 0.
Proof.
  intros H i j Hij. induction Hij as [|j Hij IH]; intros Hj; [lia|].
  specialize (H j Hj). lia.
Qed.

Lemma np_cumsum_length (acc : nat) (l : list nat) :
  length (np_cumsum acc l) = length l.
Proof.
  revert acc. induction l as [|x t IH]; simpl; intros; [reflexivity|].
  now rewrite IH.
Qed.

Lemma np_cumsum_shift (acc : nat) (l : list nat) :
  np_cumsum acc l = map (fun p => acc + p) (np_cumsum 0 l).
Proof.
  revert acc. induction l as [|x t IH]; simpl; intros; [reflexivity|].
  rewrite (IH (acc + x)), (IH x), map_map. f_equal.
  apply map_ext. intros; lia.
Qed.

(** ** Well-formed matrices *)

Lemma nnz_nth (m : csr_matrix) :
  length (indptr m) = nrows m + 1 -> nnz m = nth (nrows m) (indptr m) 0.
Proof.
  intros H. unfold nnz. rewrite last_nth, H. f_equal. lia.
Qed.

Lemma well_formed_WF (m : csr_matrix) : well_formed m = true <-> WF m.
Proof.
  unfold well_formed. split.
  - intros H. repeat (apply andb_prop in H; destruct H as [H ?]).
    apply Nat.eqb_eq in H.
    repeat match goal with
           | X : (_ =? _) = true |- _ => apply Nat.eqb_eq in X
           end.
    constructor; auto.
    + intros i j Hij Hj. apply step_monotone; [|exact Hij|lia].
      now apply nondecreasing_step.
    + rewrite <- nnz_nth; auto.
    + apply Forall_forall. intros c Hc.
      rewrite forallb_forall in *.
      apply Nat.ltb_lt. auto.
    + intros i Hi. rewrite forallb_forall in *.
      match goal with X : forall x, In x (seq _ _) -> _ |- _ => apply X end.
      apply in_seq. lia.
  - intros [H1 H2 H3 H4 H5 H6 H7].
    repeat (apply andb_true_intro; split); try (apply Nat.eqb_eq; auto).
    + apply nondecreasing_step. intros i Hi. apply H3; lia.
    + rewrite nnz_nth; auto.
    + apply forallb_forall. intros c Hc. apply Nat.ltb_lt.
      rewrite Forall_forall in H6. auto.
    + apply forallb_forall. intros i Hi. apply in_seq in Hi. apply H7. lia.
Qed.

Lemma getrow_length (m : csr_matrix) (i : nat) :
  WF m -> i < nrows m ->
  length (getrow m i) = nth (S i) (indptr m) 0 - nth i (indptr m) 0.
Proof.
  intros H Hi. unfold getrow.
  assert (Hhi : nth (S i) (indptr m) 0 <= length (indices m)).
  { rewrite <- (wf_nnz H). apply (wf_mono H); lia. }
  rewrite length_combine, !slice_length; [lia | | exact Hhi].
  rewrite <- (wf_data H). exact Hhi.
Qed.

(** ** The format check *)

Lemma check_format_ok (y : csr_matrix) :
  length (indptr y) = nrows y + 1 ->
  nth 0 (indptr y) 0 = 0 ->
  length (indices y) = length (data y) ->
  nnz y <= length (indices y) ->
  Forall (fun c => c < ncols y) (firstn (nnz y) (indices y)) ->
  nondecreasing (indptr y) = true ->
  check_format y = Ok (prune y).
Proof.
  intros H1 H2 H3 H4 H5 H6. unfold check_format.
  rewrite (proj2 (Nat.eqb_eq _ _) H1), (proj2 (Nat.eqb_eq _ _) H2),
    (proj2 (Nat.eqb_eq _ _) H3). simpl negb. cbv iota.
  destruct (Nat.ltb_spec (length (indices y)) (nnz y)) as [Hlt|_]; [lia|].
  cbv zeta.
  assert (Hf : forallb (fun c => c <? ncols y) (firstn (nnz y) (indices y))
               = true).
  { apply forallb_forall. intros c Hc. apply Nat.ltb_lt.
    rewrite Forall_forall in H5. apply H5. exact Hc. }
  cbn [prune indptr indices ncols]. rewrite Hf, H6.
  cbn [negb orb]. rewrite andb_false_r. reflexivity.
Qed.

(** ** The row pointers after a shift *)

Lemma indptr_down_length (p : list nat) (n : nat) :
  length p = n + 1 -> length (indptr_down p) = n + 1.
Proof.
  intros H. unfold indptr_down. simpl.
  rewrite removelast_firstn_len, length_firstn. lia.
Qed.

Lemma indptr_down_nth (p : list nat) (n i : nat) :
  length p = n + 1 -> i <= n ->
  nth i (indptr_down p) 0 = match i with O => 0 | S j => nth j p 0 end.
Proof.
  intros H Hi. unfold indptr_down. destruct i as [|j]; [reflexivity|].
  simpl. apply nth_removelast. lia.
Qed.

Lemma indptr_up_length (p : list nat) (n : nat) :
  length p = n + 1 -> 1 <= n -> length (indptr_up p) = n + 1.
Proof.
  intros H Hn. unfold indptr_up.
  rewrite length_app. cbn [length]. rewrite length_map, length_skipn. lia.
Qed.

Lemma indptr_up_nth (p : list nat) (n i : nat) :
  length p = n + 1 -> 1 <= n -> i <= n ->
  nth i (indptr_up p) 0 = nth (Nat.min (S i) n) p 0 - nth 1 p 0.
Proof.
  intros H Hn Hi. unfold indptr_up.
  set (q := 0 :: map (fun x => x - nth 1 p 0) (skipn 2 p)).
  assert (Hq : length q = n).
  { unfold q. cbn [length]. rewrite length_map, length_skipn. lia. }
  assert (Hnth : forall j, j < n ->
                   nth j q 0 = nth (S j) p 0 - nth 1 p 0).
  { intros [|j] Hj; unfold q.
    - cbn [nth]. lia.
    - cbn [nth]. rewrite nth_map_sub, nth_skipn. reflexivity. }
  destruct (Nat.eq_dec i n) as [->|Hne].
  - rewrite app_nth2 by lia. rewrite Hq, Nat.sub_diag. cbn [nth].
    rewrite last_nth, Hq, Hnth by lia.
    replace (Nat.min (S n) n) with n by lia. f_equal. f_equal. lia.
  - rewrite app_nth1 by lia. rewrite Hnth by lia.
    replace (Nat.min (S i) n) with (S i) by lia. reflexivity.
Qed.

(** ** What [csr_shift] returns *)

Lemma csr_shift_down_eq (m : csr_matrix) :
  WF m -> 1 <= nrows m -> csr_shift m true = Ok (shifted_down m).
Proof.
  intros H Hn.
  pose proof (wf_len H) as Hlen.
  pose proof (wf_nnz H) as Hnnz.
  pose proof (wf_data H) as Hdata.
  assert (Hq : nth (nrows m - 1) (indptr m) 0 <= length (indices m)).
  { rewrite <- Hnnz. apply (wf_mono H); lia. }
  assert (Hck : forall I D,
             length I = length D ->
             nth (nrows m - 1) (indptr m) 0 <= length I ->
             firstn (nth (nrows m - 1) (indptr m) 0) I
             = firstn (nth (nrows m - 1) (indptr m) 0) (indices m) ->
             firstn (nth (nrows m - 1) (indptr m) 0) D
             = firstn (nth (nrows m - 1) (indptr m) 0) (data m) ->
             check_format
               (mk_csr (nrows m) (ncols m) (0 :: removelast (indptr m)) I D)
             = Ok (shifted_down m)).
  { intros I D HID HI EI ED.
    assert (Hz : nnz (mk_csr (nrows m) (ncols m)
                             (0 :: removelast (indptr m)) I D)
                 = nth (nrows m - 1) (indptr m) 0).
    { rewrite nnz_nth; cbn [indptr nrows].
      - rewrite (indptr_down_nth (indptr m) (nrows m)) by (auto; lia).
        destruct (nrows m) as [|k]; [lia|]. f_equal. lia.
      - now apply indptr_down_length. }
    rewrite check_format_ok.
    - unfold prune. rewrite Hz. cbn [indptr nrows ncols indices data].
      unfold shifted_down, indptr_down. now rewrite EI, ED.
    - cbn [indptr nrows]. now apply indptr_down_length.
    - reflexivity.
    - exact HID.
    - rewrite Hz. exact HI.
    - rewrite Hz. cbn [indices ncols]. rewrite EI.
      apply Forall_firstn, (wf_cols H).
    - cbn [indptr]. apply nondecreasing_step. intros i Hi.
      fold (indptr_down (indptr m)) in *.
      rewrite (indptr_down_length (indptr m) (nrows m) Hlen) in Hi.
      rewrite !(indptr_down_nth (indptr m) (nrows m)) by (auto; lia).
      destruct i as [|j]; [lia|]. apply (wf_mono H); lia. }
  unfold csr_shift, neg_index. rewrite Hlen.
  replace ((1 <=? 1) && (1 <=? nrows m + 1)) with true
    by (symmetry; apply andb_true_intro; split; apply Nat.leb_le; lia).
  replace ((1 <=? 2) && (2 <=? nrows m + 1)) with true
    by (symmetry; apply andb_true_intro; split; apply Nat.leb_le; lia).
  cbn [bind].
  replace (nrows m + 1 - 1) with (nrows m) by lia.
  replace (nrows m + 1 - 2) with (nrows m - 1) by lia.
  destruct (Nat.eqb_spec (nth (nrows m) (indptr m) 0)
                         (nth (nrows m - 1) (indptr m) 0)) as [He|Hne];
    cbn [negb].
  - apply Hck; auto.
  - assert (Hlt : nth (nrows m - 1) (indptr m) 0 < length (indices m)).
    { assert (nth (nrows m - 1) (indptr m) 0 <= nth (nrows m) (indptr m) 0)
        by (apply (wf_mono H); lia). lia. }
    rewrite !np_delete_last_Ok by lia. cbn [bind].
    apply Hck.
    + rewrite !removelast_firstn_len, !length_firstn. lia.
    + rewrite removelast_firstn_len, length_firstn. lia.
    + apply firstn_removelast. exact Hlt.
    + apply firstn_removelast. lia.
Qed.

Lemma csr_shift_up_eq (m : csr_matrix) :
  WF m -> 1 <= nrows m -> csr_shift m false = Ok (shifted_up m).
Proof.
  intros H Hn.
  pose proof (wf_len H) as Hlen.
  pose proof (wf_nnz H) as Hnnz.
  pose proof (wf_data H) as Hdata.
  set (p1 := nth 1 (indptr m) 0).
  assert (Hp1 : p1 <= nth (nrows m) (indptr m) 0)
    by (apply (wf_mono H); lia).
  assert (Hck : forall I D,
             I = skipn p1 (indices m) -> D = skipn p1 (data m) ->
             check_format
               (mk_csr (nrows m) (ncols m) (indptr_up (indptr m)) I D)
             = Ok (shifted_up m)).
  { intros I D -> ->.
    assert (Hz : nnz (mk_csr (nrows m) (ncols m) (indptr_up (indptr m))
                             (skipn p1 (indices m)) (skipn p1 (data m)))
                 = nth (nrows m) (indptr m) 0 - p1).
    { rewrite nnz_nth; cbn [indptr nrows].
      - rewrite (indptr_up_nth (indptr m) (nrows m)) by (auto; lia).
        replace (Nat.min (S (nrows m)) (nrows m)) with (nrows m) by lia.
        reflexivity.
      - now apply indptr_up_length. }
    rewrite check_format_ok.
    - unfold prune. rewrite Hz. reflexivity.
    - cbn [indptr nrows]. now apply indptr_up_length.
    - cbn [indptr]. rewrite (indptr_up_nth (indptr m) (nrows m)) by (auto; lia).
      replace (Nat.min 1 (nrows m)) with 1 by lia. lia.
    - cbn [indices data]. rewrite !length_skipn. lia.
    - rewrite Hz. cbn [indices]. rewrite length_skipn. lia.
    - rewrite Hz. cbn [indices ncols].
      apply Forall_firstn, Forall_skipn, (wf_cols H).
    - cbn [indptr]. apply nondecreasing_step. intros i Hi.
      rewrite (indptr_up_length (indptr m) (nrows m) Hlen Hn) in Hi.
      rewrite !(indptr_up_nth (indptr m) (nrows m)) by (auto; lia).
      assert (nth (Nat.min (S i) (nrows m)) (indptr m) 0
              <= nth (Nat.min (S (S i)) (nrows m)) (indptr m) 0)
        by (apply (wf_mono H); lia).
      lia. }
  unfold csr_shift, index. rewrite Hlen.
  replace (1 <? nrows m + 1) with true
    by (symmetry; apply Nat.ltb_lt; lia).
  cbn [bind]. fold p1.
  change ((0 :: map (fun p => p - p1) (skipn 2 (indptr m)))
            ++ [last (0 :: map (fun p => p - p1) (skipn 2 (indptr m))) 0])
    with (indptr_up (indptr m)).
  destruct (Nat.eqb_spec p1 0) as [He|Hne]; cbn [negb].
  - apply Hck; rewrite He; reflexivity.
  - apply Hck; reflexivity.
Qed.

Lemma csr_shift_eq (m : csr_matrix) (down : bool) :
  WF m -> 1 <= nrows m ->
  csr_shift m down = Ok (if down then shifted_down m else shifted_up m).
Proof.
  destruct down; [apply csr_shift_down_eq | apply csr_shift_up_eq].
Qed.

(** ** The rows after a shift *)

Lemma getrow_shifted_down (m : csr_matrix) (i : nat) :
  WF m -> 1 <= nrows m -> i < nrows m ->
  getrow (shifted_down m) i = shifted_row m true i.
Proof.
  intros H Hn Hi. pose proof (wf_len H) as Hlen.
  unfold getrow, shifted_down. cbn [indptr indices data shifted_row].
  rewrite !(indptr_down_nth (indptr m) (nrows m)) by (auto; lia).
  destruct i as [|j].
  - rewrite (wf_zero H). reflexivity.
  - assert (nth (S j) (indptr m) 0 <= nth (nrows m - 1) (indptr m) 0)
      by (apply (wf_mono H); lia).
    rewrite !slice_firstn by assumption. reflexivity.
Qed.

Lemma getrow_shifted_up (m : csr_matrix) (i : nat) :
  WF m -> 1 <= nrows m -> i < nrows m ->
  getrow (shifted_up m) i = shifted_row m false i.
Proof.
  intros H Hn Hi. pose proof (wf_len H) as Hlen.
  unfold getrow, shifted_up. cbn [indptr indices data shifted_row].
  rewrite !(indptr_up_nth (indptr m) (nrows m)) by (auto; lia).
  destruct (Nat.ltb_spec (S i) (nrows m)) as [Hlt|Hge].
  - replace (Nat.min (S i) (nrows m)) with (S i) by lia.
    replace (Nat.min (S (S i)) (nrows m)) with (S (S i)) by lia.
    assert (nth 1 (indptr m) 0 <= nth (S i) (indptr m) 0)
      by (apply (wf_mono H); lia).
    assert (nth (S i) (indptr m) 0 <= nth (S (S i)) (indptr m) 0)
      by (apply (wf_mono H); lia).
    assert (nth (S (S i)) (indptr m) 0 <= nth (nrows m) (indptr m) 0)
      by (apply (wf_mono H); lia).
    rewrite !slice_firstn by lia. rewrite !slice_skipn.
    unfold getrow. repeat f_equal; lia.
  - replace (Nat.min (S i) (nrows m)) with (nrows m) by lia.
    replace (Nat.min (S (S i)) (nrows m)) with (nrows m) by lia.
    rewrite !slice_empty by lia. reflexivity.
Qed.

Lemma getrow_shifted (m : csr_matrix) (down : bool) (i : nat) :
  WF m -> 1 <= nrows m -> i < nrows m ->
  getrow (if down then shifted_down m else shifted_up m) i
  = shifted_row m down i.
Proof.
  destruct down; [apply getrow_shifted_down | apply getrow_shifted_up].
Qed.

(** ** Well-formedness is kept *)

Lemma shifted_row_sorted (m : csr_matrix) (down : bool) (i : nat) :
  WF m -> i < nrows m ->
  nondecreasing (map fst (shifted_row m down i)) = true.
Proof.
  intros H Hi. unfold shifted_row. destruct down.
  - destruct i as [|j]; [reflexivity|]. apply (wf_sorted H). lia.
  - destruct (Nat.ltb_spec (S i) (nrows m)); [|reflexivity].
    apply (wf_sorted H). lia.
Qed.

Lemma WF_shifted_down (m : csr_matrix) :
  WF m -> 1 <= nrows m -> WF (shifted_down m).
Proof.
  intros H Hn. pose proof (wf_len H) as Hlen.
  assert (Hq : nth (nrows m - 1) (indptr m) 0 <= length (indices m)).
  { rewrite <- (wf_nnz H). apply (wf_mono H); lia. }
  constructor.
  - cbn [shifted_down indptr nrows]. now apply indptr_down_length.
  - reflexivity.
  - cbn [shifted_down indptr nrows]. intros i j Hij Hj.
    rewrite !(indptr_down_nth (indptr m) (nrows m)) by (auto; lia).
    destruct i as [|i'], j as [|j']; try lia. apply (wf_mono H); lia.
  - cbn [shifted_down indptr nrows indices].
    rewrite (indptr_down_nth (indptr m) (nrows m)) by (auto; lia).
    rewrite length_firstn. destruct (nrows m) as [|k]; [lia|].
    replace (S k - 1) with k in * by lia. lia.
  - cbn [shifted_down indices data]. rewrite !length_firstn.
    rewrite (wf_data H). reflexivity.
  - cbn [shifted_down indices ncols]. apply Forall_firstn, (wf_cols H).
  - intros i Hi. change (nrows (shifted_down m)) with (nrows m) in Hi.
    rewrite getrow_shifted_down by assumption.
    now apply shifted_row_sorted.
Qed.

Lemma WF_shifted_up (m : csr_matrix) :
  WF m -> 1 <= nrows m -> WF (shifted_up m).
Proof.
  intros H Hn. pose proof (wf_len H) as Hlen.
  assert (Hp1 : nth 1 (indptr m) 0 <= nth (nrows m) (indptr m) 0)
    by (apply (wf_mono H); lia).
  constructor.
  - cbn [shifted_up indptr nrows]. now apply indptr_up_length.
  - cbn [shifted_up indptr].
    rewrite (indptr_up_nth (indptr m) (nrows m)) by (auto; lia).
    replace (Nat.min 1 (nrows m)) with 1 by lia. lia.
  - cbn [shifted_up indptr nrows]. intros i j Hij Hj.
    rewrite !(indptr_up_nth (indptr m) (nrows m)) by (auto; lia).
    assert (nth (Nat.min (S i) (nrows m)) (indptr m) 0
            <= nth (Nat.min (S j) (nrows m)) (indptr m) 0)
      by (apply (wf_mono H); lia).
    lia.
  - cbn [shifted_up indptr nrows indices].
    rewrite (indptr_up_nth (indptr m) (nrows m)) by (auto; lia).
    replace (Nat.min (S (nrows m)) (nrows m)) with (nrows m) by lia.
    rewrite length_firstn, length_skipn. rewrite <- (wf_nnz H). lia.
  - cbn [shifted_up indices data]. rewrite !length_firstn, !length_skipn.
    rewrite (wf_data H). reflexivity.
  - cbn [shifted_up indices ncols].
    apply Forall_firstn, Forall_skipn, (wf_cols H).
  - intros i Hi. change (nrows (shifted_up m)) with (nrows m) in Hi.
    rewrite getrow_shifted_up by assumption.
    now apply shifted_row_sorted.
Qed.

Lemma WF_shifted (m : csr_matrix) (down : bool) :
  WF m -> 1 <= nrows m -> WF (if down then shifted_down m else shifted_up m).
Proof.
  destruct down; [apply WF_shifted_down | apply WF_shifted_up].
Qed.

Lemma nnz_shifted (m : csr_matrix) (down : bool) :
  WF m -> 1 <= nrows m ->
  nnz (if down then shifted_down m else shifted_up m)
  + length (getrow m (boundary_row m down)) = nnz m.
Proof.
  intros H Hn. pose proof (wf_len H) as Hlen.
  pose proof (WF_shifted m down H Hn) as Hy.
  rewrite (nnz_nth m Hlen), getrow_length
    by (auto; unfold boundary_row; destruct down; lia).
  rewrite nnz_nth by (apply (wf_len Hy)).
  destruct down; cbn [shifted_down shifted_up nrows indptr boundary_row].
  - rewrite (indptr_down_nth (indptr m) (nrows m)) by (auto; lia).
    assert (nth (nrows m - 1) (indptr m) 0 <= nth (nrows m) (indptr m) 0)
      by (apply (wf_mono H); lia).
    destruct (nrows m) as [|k]; [lia|].
    replace (S k - 1) with k in * by lia. lia.
  - rewrite (indptr_up_nth (indptr m) (nrows m)) by (auto; lia).
    replace (Nat.min (S (nrows m)) (nrows m)) with (nrows m) by lia.
    assert (nth 1 (indptr m) 0 <= nth (nrows m) (indptr m) 0)
      by (apply (wf_mono H); lia).
    rewrite (wf_zero H). lia.
Qed.

Lemma shifted_row_vacated (m : csr_matrix) (down : bool) :
  1 <= nrows m -> shifted_row m down (vacated_row m down) = [].
Proof.
  intros Hn. unfold shifted_row, vacated_row. destruct down; [reflexivity|].
  destruct (Nat.ltb_spec (S (nrows m - 1)) (nrows m)); [lia | reflexivity].
Qed.

(** C3. One [csr_shift] of a well-formed matrix returns a matrix of the
    same shape whose number of stored entries is the input's minus the
    entries of the boundary row that fell off (the last row downwards, the
    first row upwards); the vacated row is empty and every row holds the
    entries of its neighbour, so nothing wraps around; and the result is
    well-formed again. *)
Theorem csr_shift_conserves (m : csr_matrix) (down : bool) :
  well_formed m = true -> 1 <= nrows m ->
  exists y,
    csr_shift m down = Ok y
    /\ shape y = shape m
    /\ nnz y + length (getrow m (boundary_row m down)) = nnz m
    /\ getrow y (vacated_row m down) = []
    /\ (forall i, i < nrows m -> getrow y i = shifted_row m down i)
    /\ well_formed y = true.
Proof.
  intros Hwf Hn. apply well_formed_WF in Hwf.
  exists (if down then shifted_down m else shifted_up m).
  split; [now apply csr_shift_eq|].
  split; [destruct down; reflexivity|].
  split; [now apply nnz_shifted|].
  split.
  - rewrite getrow_shifted; auto.
    + now apply shifted_row_vacated.
    + unfold vacated_row. destruct down; lia.
  - split.
    + intros i Hi. now apply getrow_shifted.
    + apply well_formed_WF. now apply WF_shifted.
Qed.

Lemma csr_shift_conserves_witness :
  well_formed sample_onehot = true /\ 1 <= nrows sample_onehot /\
  exists y,
    csr_shift sample_onehot true = Ok y
    /\ shape y = shape sample_onehot
    /\ nnz y + length (getrow sample_onehot (boundary_row sample_onehot true))
       = nnz sample_onehot
    /\ getrow y (vacated_row sample_onehot true) = []
    /\ (forall i, i < nrows sample_onehot ->
                  getrow y i = shifted_row sample_onehot true i)
    /\ well_formed y = true.
Proof.
  split; [reflexivity|]. split; [simpl; lia|].
  apply (csr_shift_conserves sample_onehot true); [reflexivity | simpl; lia].
Defined.

(** C5. [csr_shift] one way and then the opposite way gives back every
    row of a well-formed matrix except the boundary row whose entries fell
    off on the first shift; that row is empty in the result, so the result
    has lost exactly its entries. *)
Theorem csr_shift_round_trip (m : csr_matrix) (down : bool) :
  well_formed m = true -> 1 <= nrows m ->
  exists y z,
    csr_shift m down = Ok y
    /\ csr_shift y (negb down) = Ok z
    /\ shape z = shape m
    /\ getrow z (boundary_row m down) = []
    /\ (forall i, i < nrows m -> i <> boundary_row m down ->
                  getrow z i = getrow m i)
    /\ nnz z + length (getrow m (boundary_row m down)) = nnz m.
Proof.
  intros Hwf Hn. apply well_formed_WF in Hwf.
  set (y := if down then shifted_down m else shifted_up m).
  assert (Hy : WF y) by now apply WF_shifted.
  assert (Hny : nrows y = nrows m) by (unfold y; destruct down; reflexivity).
  assert (Hn' : 1 <= nrows y) by lia.
  set (z := if negb down then shifted_down y else shifted_up y).
  assert (Hrow : forall i, i < nrows m ->
            getrow z i = if i =? boundary_row m down then []
                         else getrow m i).
  { intros i Hi. unfold z. rewrite getrow_shifted by (auto; lia).
    unfold shifted_row, boundary_row. rewrite Hny.
    destruct down; cbn [negb].
    - destruct (Nat.ltb_spec (S i) (nrows m)) as [Hlt|Hge].
      + unfold y. rewrite getrow_shifted_down by (auto; lia).
        destruct (Nat.eqb_spec i (nrows m - 1)); [lia | reflexivity].
      + destruct (Nat.eqb_spec i (nrows m - 1)); [reflexivity | lia].
    - destruct i as [|j]; [reflexivity|].
      unfold y. rewrite getrow_shifted_up by (auto; lia).
      unfold shifted_row.
      destruct (Nat.ltb_spec (S j) (nrows m)); [reflexivity | lia]. }
  assert (Hb : boundary_row m down < nrows m)
    by (unfold boundary_row; destruct down; lia).
  exists y, z.
  split; [now apply csr_shift_eq|].
  split; [now apply csr_shift_eq|].
  split; [unfold z, y; destruct down; reflexivity|].
  split; [rewrite Hrow by exact Hb; now rewrite Nat.eqb_refl|].
  split.
  - intros i Hi Hne. rewrite Hrow by exact Hi.
    destruct (Nat.eqb_spec i (boundary_row m down)); [contradiction|].
    reflexivity.
  - rewrite <- (nnz_shifted m down Hwf Hn). fold y. f_equal.
    pose proof (nnz_shifted y (negb down) Hy Hn') as Hz. fold z in Hz.
    rewrite <- Hz.
    assert (He : getrow y (boundary_row y (negb down)) = []).
    { replace (boundary_row y (negb down)) with (vacated_row m down)
        by (unfold boundary_row, vacated_row; rewrite Hny;
            destruct down; reflexivity).
      unfold y. rewrite getrow_shifted; auto.
      - now apply shifted_row_vacated.
      - unfold vacated_row. destruct down; lia. }
    rewrite He. simpl. lia.
Qed.

Lemma csr_shift_round_trip_witness :
  well_formed sample_onehot = true /\ 1 <= nrows sample_onehot /\
  exists y z,
    csr_shift sample_onehot true = Ok y
    /\ csr_shift y (negb true) = Ok z
    /\ shape z = shape sample_onehot
    /\ getrow z (boundary_row sample_onehot true) = []
    /\ (forall i, i < nrows sample_onehot ->
                  i <> boundary_row sample_onehot true ->
                  getrow z i = getrow sample_onehot i)
    /\ nnz z + length (getrow sample_onehot (boundary_row sample_onehot true))
       = nnz sample_onehot.
Proof.
  split; [reflexivity|]. split; [simpl; lia|].
  apply (csr_shift_round_trip sample_onehot true); [reflexivity | simpl; lia].
Defined.

(** ** Matrices stored row by row *)

Lemma combine_fst_snd {A B : Type} (l : list (A * B)) :
  combine (map fst l) (map snd l) = l.
Proof.
  induction l as [|[a b] t IH]; simpl; [reflexivity | now rewrite IH].
Qed.

Lemma indptr_of_rows_cons (r : list (nat * Z)) (rs : list (list (nat * Z)))
      (j : nat) :
  j <= length rs ->
  nth (S j) (0 :: np_cumsum 0 (map (@length (nat * Z)) (r :: rs))) 0
  = length r + nth j (0 :: np_cumsum 0 (map (@length (nat * Z)) rs)) 0.
Proof.
  intros Hj. cbn [map np_cumsum nth]. rewrite Nat.add_0_l.
  rewrite np_cumsum_shift. destruct j as [|j]; cbn [nth]; [lia|].
  rewrite (nth_indep _ 0 ((fun p => length r + p) 0)).
  - apply map_nth.
  - rewrite length_map, np_cumsum_length, length_map. simpl in Hj. lia.
Qed.

Lemma slice_of_rows {B : Type} (g : nat * Z -> B)
      (rows : list (list (nat * Z))) (i : nat) :
  i < length rows ->
  slice (flat_map (map g) rows)
        (nth i (0 :: np_cumsum 0 (map (@length (nat * Z)) rows)) 0)
        (nth (S i) (0 :: np_cumsum 0 (map (@length (nat * Z)) rows)) 0)
  = map g (nth i rows []).
Proof.
  revert i. induction rows as [|r rs IH]; intros i Hi; [simpl in Hi; lia|].
  destruct i as [|j].
  - rewrite indptr_of_rows_cons by lia. cbn [nth flat_map].
    rewrite Nat.add_0_r, <- (length_map g r). apply slice_app_l.
  - simpl in Hi. rewrite !indptr_of_rows_cons by lia.
    cbn [flat_map]. rewrite <- (length_map g r), slice_app_r.
    cbn [nth]. apply IH. lia.
Qed.

Lemma getrow_of_rows (n k : nat) (rows : list (list (nat * Z))) (i : nat) :
  i < length rows -> getrow (csr_of_rows n k rows) i = nth i rows [].
Proof.
  intros Hi. unfold getrow, csr_of_rows. cbn [indptr indices data].
  rewrite !slice_of_rows by exact Hi. apply combine_fst_snd.
Qed.

Lemma row_entry_app (a b : list (nat * Z)) (c : nat) :
  row_entry (a ++ b) c = (row_entry a c + row_entry b c)%Z.
Proof.
  unfold row_entry. induction a as [|e a IH]; simpl; [reflexivity|].
  rewrite IH. destruct (fst e =? c); lia.
Qed.

Lemma row_entry_sparse_row (k : nat) (f : nat -> Z) (c : nat) :
  row_entry (sparse_row k f) c = if c <? k then f c else 0%Z.
Proof.
  unfold sparse_row. induction k as [|k IH].
  - reflexivity.
  - rewrite seq_S, map_app, filter_app, row_entry_app, IH.
    cbn [map filter snd Nat.add].
    destruct (Nat.ltb_spec c k) as [Hlt|Hge];
      destruct (Nat.ltb_spec c (S k)) as [Hlt'|Hge']; try lia.
    + destruct (Z.eqb_spec (f k) 0); cbn [negb row_entry fold_right fst snd].
      * lia.
      * destruct (Nat.eqb_spec k c); lia.
    + assert (c = k) by lia. subst c.
      destruct (Z.eqb_spec (f k) 0); cbn [negb row_entry fold_right fst snd].
      * lia.
      * rewrite Nat.eqb_refl. lia.
    + destruct (Z.eqb_spec (f k) 0); cbn [negb row_entry fold_right fst snd].
      * lia.
      * destruct (Nat.eqb_spec k c); lia.
Qed.

Lemma csr_get_of_dense (n k : nat) (f : nat -> nat -> Z) (i c : nat) :
  i < n -> csr_get (csr_of_dense n k f) i c = if c <? k then f i c else 0%Z.
Proof.
  intros Hi. unfold csr_get, csr_of_dense.
  rewrite getrow_of_rows by (rewrite length_map, length_seq; exact Hi).
  rewrite (nth_indep _ [] ((fun i => sparse_row k (f i)) 0))
    by (rewrite length_map, length_seq; exact Hi).
  rewrite (map_nth (fun i => sparse_row k (f i))), seq_nth by exact Hi.
  apply row_entry_sparse_row.
Qed.

Lemma csr_of_dense_ext (n k : nat) (f g : nat -> nat -> Z) :
  (forall i c, i < n -> c < k -> f i c = g i c) ->
  csr_of_dense n k f = csr_of_dense n k g.
Proof.
  intros H. unfold csr_of_dense. f_equal.
  apply map_ext_in. intros i Hi. apply in_seq in Hi.
  unfold sparse_row. f_equal.
  apply map_ext_in. intros c Hc. apply in_seq in Hc.
  f_equal. apply H; lia.
Qed.

Lemma np_cumsum_zeros (n : nat) : np_cumsum 0 (repeat 0 n) = repeat 0 n.
Proof.
  induction n as [|n IH]; simpl; [reflexivity | now rewrite IH].
Qed.

Lemma map_const_seq {A : Type} (a : A) (s n : nat) :
  map (fun _ => a) (seq s n) = repeat a n.
Proof.
  revert s. induction n as [|n IH]; intros s; simpl;
    [reflexivity | now rewrite IH].
Qed.

Lemma csr_zeros_dense (n k : nat) :
  csr_zeros (n, k) = csr_of_dense n k (fun _ _ => 0%Z).
Proof.
  assert (Hrow : sparse_row k (fun _ => 0%Z) = []).
  { unfold sparse_row. induction (seq 0 k) as [|c t IH]; simpl; auto. }
  unfold csr_zeros, csr_of_dense, csr_of_rows. cbn [fst snd].
  assert (Hrows : map (fun _ : nat => sparse_row k (fun _ => 0%Z)) (seq 0 n)
                  = repeat [] n).
  { rewrite Hrow. apply map_const_seq. }
  rewrite Hrows. f_equal.
  - replace (n + 1) with (S n) by lia. cbn [repeat]. f_equal.
    replace (map (@length (nat * Z)) (repeat [] n)) with (repeat 0 n).
    + now rewrite np_cumsum_zeros.
    + clear. induction n as [|n IH]; simpl; [reflexivity | now rewrite <- IH].
  - clear. induction n as [|n IH]; simpl; auto.
  - clear. induction n as [|n IH]; simpl; auto.
Qed.

(** ** The rotated comparison *)

Lemma np_roll_eq {A : Type} (v : list A) (s : Z) :
  0 < length v ->
  np_roll v s
  = skipn (length v - Z.to_nat (s mod Z.of_nat (length v))) v
    ++ firstn (length v - Z.to_nat (s mod Z.of_nat (length v))) v.
Proof.
  destruct v; [simpl; lia | reflexivity].
Qed.

Lemma np_roll_length {A : Type} (v : list A) (s : Z) :
  length (np_roll v s) = length v.
Proof.
  destruct v as [|x t]; [reflexivity|].
  rewrite np_roll_eq by (simpl; lia).
  rewrite length_app, length_skipn, length_firstn. lia.
Qed.

Lemma np_roll_nth {A : Type} (v : list A) (s : Z) (i : nat) (d : A) :
  i < length v ->
  nth i (np_roll v s) d
  = nth (Z.to_nat ((Z.of_nat i - s) mod Z.of_nat (length v))) v d.
Proof.
  intros Hi. rewrite np_roll_eq by lia.
  set (n := length v) in *.
  assert (Hn : (0 < Z.of_nat n)%Z) by lia.
  pose proof (Z.mod_pos_bound s (Z.of_nat n) Hn) as Hk.
  pose proof (Z.div_mod s (Z.of_nat n) ltac:(lia)) as Hdiv.
  set (k := Z.to_nat (s mod Z.of_nat n)).
  assert (Hkn : k < n) by (unfold k; lia).
  destruct (Nat.lt_ge_cases i k) as [Hlt|Hge].
  - rewrite app_nth1 by (rewrite length_skipn; fold n; lia).
    rewrite nth_skipn. f_equal.
    rewrite <- (Z.mod_unique_pos (Z.of_nat i - s) (Z.of_nat n)
                  (- (s / Z.of_nat n) - 1)
                  (Z.of_nat i - s mod Z.of_nat n + Z.of_nat n));
      unfold k in *; lia.
  - rewrite app_nth2 by (rewrite length_skipn; fold n; lia).
    rewrite length_skipn. fold n. rewrite nth_firstn.
    destruct (Nat.ltb_spec (i - (n - (n - k))) (n - k)); [|lia].
    f_equal.
    rewrite <- (Z.mod_unique_pos (Z.of_nat i - s) (Z.of_nat n)
                  (- (s / Z.of_nat n))
                  (Z.of_nat i - s mod Z.of_nat n));
      unfold k in *; lia.
Qed.

Lemma is_same_after_shift_length (v : list string) (s : Z) :
  length (is_same_after_shift v s) = length v.
Proof.
  unfold is_same_after_shift.
  rewrite length_map, length_combine, np_roll_length. lia.
Qed.

Lemma is_same_after_shift_nth (v : list string) (s : Z) (i : nat) :
  i < length v ->
  nth i (is_same_after_shift v s) 0%Z
  = if String.eqb (nth i v EmptyString)
         (nth (Z.to_nat ((Z.of_nat i - s) mod Z.of_nat (length v)))
              v EmptyString)
    then 1%Z else 0%Z.
Proof.
  intros Hi. unfold is_same_after_shift.
  set (f := fun p : string * string =>
              if String.eqb (fst p) (snd p) then 1%Z else 0%Z).
  rewrite (nth_indep _ 0%Z (f (EmptyString, EmptyString)))
    by (rewrite length_map, length_combine, np_roll_length; lia).
  rewrite map_nth, combine_nth by (now rewrite np_roll_length).
  unfold f. cbn [fst snd].
  now rewrite np_roll_nth.
Qed.

Lemma neighbour_rotation (earlier : bool) (n i d j : nat) :
  i < n -> neighbour earlier n i d = Some j ->
  Z.to_nat ((Z.of_nat i - signed earlier d) mod Z.of_nat n) = j.
Proof.
  intros Hi. unfold neighbour, signed. destruct earlier.
  - destruct (Nat.leb_spec d i); [|discriminate].
    intros [= <-]. rewrite Z.mod_small; lia.
  - destruct (Nat.ltb_spec (i + d) n); [|discriminate].
    intros [= <-]. rewrite Z.mod_small; lia.
Qed.

Lemma neighbour_lt (earlier : bool) (n i d j : nat) :
  i < n -> neighbour earlier n i d = Some j -> j < n.
Proof.
  intros Hi. unfold neighbour. destruct earlier.
  - destruct (Nat.leb_spec d i); [|discriminate]. intros [= <-]. lia.
  - destruct (Nat.ltb_spec (i + d) n); [|discriminate]. intros [= <-]. lia.
Qed.

(** The mask of a step, at a position whose neighbour is in range. *)
Lemma mask_at_neighbour (v : list string) (earlier : bool) (i d j : nat) :
  i < length v -> neighbour earlier (length v) i d = Some j ->
  nth i (is_same_after_shift v (signed earlier d)) 0%Z
  = if String.eqb (nth i v EmptyString) (nth j v EmptyString)
    then 1%Z else 0%Z.
Proof.
  intros Hi Hj. rewrite is_same_after_shift_nth by exact Hi.
  now rewrite (neighbour_rotation earlier (length v) i d j Hi Hj).
Qed.

(** ** Repeated shifts *)

Lemma iter_shift_S (m : csr_matrix) (down : bool) (k : nat) :
  iter_shift m down (S k)
  = if down then shifted_down (iter_shift m down k)
    else shifted_up (iter_shift m down k).
Proof. reflexivity. Qed.

Lemma iter_shift_shape (m : csr_matrix) (down : bool) (k : nat) :
  nrows (iter_shift m down k) = nrows m
  /\ ncols (iter_shift m down k) = ncols m.
Proof.
  induction k as [|k IH]; [split; reflexivity|].
  rewrite iter_shift_S. destruct down; exact IH.
Qed.

Lemma WF_iter_shift (m : csr_matrix) (down : bool) (k : nat) :
  WF m -> 1 <= nrows m -> WF (iter_shift m down k).
Proof.
  intros H Hn. induction k as [|k IH]; [exact H|].
  rewrite iter_shift_S. apply WF_shifted; [exact IH|].
  now rewrite (proj1 (iter_shift_shape m down k)).
Qed.

Lemma getrow_iter_shift (m : csr_matrix) (down : bool) (k i : nat) :
  WF m -> i < nrows m ->
  getrow (iter_shift m down k) i
  = match neighbour down (nrows m) i k with
    | Some j => getrow m j
    | None => []
    end.
Proof.
  intros H. revert i. induction k as [|k IH]; intros i Hi.
  - unfold neighbour. cbn [iter_shift]. destruct down.
    + cbn. now rewrite Nat.sub_0_r.
    + rewrite Nat.add_0_r. destruct (Nat.ltb_spec i (nrows m)); [|lia].
      reflexivity.
  - pose proof (iter_shift_shape m down k) as [Hr _].
    rewrite iter_shift_S, getrow_shifted
      by (try apply WF_iter_shift; try rewrite Hr; auto; lia).
    unfold shifted_row, neighbour. rewrite Hr. destruct down.
    + destruct i as [|j]; [reflexivity|].
      rewrite IH by lia. unfold neighbour.
      destruct (Nat.leb_spec k j); destruct (Nat.leb_spec (S k) (S j));
        try lia; reflexivity.
    + destruct (Nat.ltb_spec (S i) (nrows m)) as [Hlt|Hge].
      * rewrite IH by lia. unfold neighbour.
        destruct (Nat.ltb_spec (S i + k) (nrows m));
          destruct (Nat.ltb_spec (i + S k) (nrows m)); try lia.
        -- f_equal. lia.
        -- reflexivity.
      * destruct (Nat.ltb_spec (i + S k) (nrows m)); [lia | reflexivity].
Qed.

Lemma csr_get_iter_shift (m : csr_matrix) (down : bool) (k i c : nat) :
  WF m -> i < nrows m ->
  csr_get (iter_shift m down k) i c
  = match neighbour down (nrows m) i k with
    | Some j => csr_get m j c
    | None => 0%Z
    end.
Proof.
  intros H Hi. unfold csr_get. rewrite getrow_iter_shift by assumption.
  destruct (neighbour down (nrows m) i k); reflexivity.
Qed.

(** ** Machine arithmetic on counts *)

Lemma wrap64_small (z : Z) :
  (- 2 ^ 63 <= z < 2 ^ 63)%Z -> wrap64 z = z.
Proof.
  intros H. unfold wrap64. rewrite Z.mod_small; lia.
Qed.

Lemma mul64_0_r (a : Z) : mul64 a 0 = 0%Z.
Proof. unfold mul64. now rewrite Z.mul_0_r. Qed.

Lemma mul64_0_l (a : Z) : mul64 0 a = 0%Z.
Proof. reflexivity. Qed.

Lemma mul64_1_l (a : Z) : (a = 0 \/ a = 1)%Z -> mul64 1 a = a.
Proof.
  intros [-> | ->]; reflexivity.
Qed.

(** ** The sum of the steps *)

Lemma step_term_01 (m : csr_matrix) (company : list string) (earlier : bool)
      (d i c : nat) :
  indicator m -> i < nrows m ->
  (step_term m company earlier d i c = 0
   \/ step_term m company earlier d i c = 1)%Z.
Proof.
  intros Hind Hi. unfold step_term.
  destruct (neighbour earlier (nrows m) i d) as [j|] eqn:Ej; [|now left].
  destruct (String.eqb _ _); [|now left].
  apply Hind. eapply neighbour_lt; eauto.
Qed.

Lemma step_term_out (m : csr_matrix) (company : list string) (earlier : bool)
      (d i c : nat) :
  neighbour earlier (nrows m) i d = None ->
  step_term m company earlier d i c = 0%Z.
Proof.
  intros H. unfold step_term. now rewrite H.
Qed.

Lemma window_sum_bounds (m : csr_matrix) (company : list string)
      (earlier : bool) (w i c : nat) :
  indicator m -> i < nrows m ->
  (0 <= window_sum m company earlier w i c
   <= Z.of_nat (reach earlier (nrows m) i w))%Z.
Proof.
  intros Hind Hi. induction w as [|w IH].
  - unfold reach. destruct earlier; simpl; lia.
  - cbn [window_sum].
    pose proof (step_term_01 m company earlier (S w) i c Hind Hi) as H01.
    destruct (neighbour earlier (nrows m) i (S w)) as [j|] eqn:Ej.
    + assert (reach earlier (nrows m) i (S w)
              = S (reach earlier (nrows m) i w)).
      { unfold neighbour, reach in *. destruct earlier.
        - destruct (Nat.leb_spec (S w) i); [lia | discriminate].
        - destruct (Nat.ltb_spec (i + S w) (nrows m)); [lia | discriminate]. }
      lia.
    + rewrite (step_term_out m company earlier (S w) i c Ej).
      assert (reach earlier (nrows m) i w <= reach earlier (nrows m) i (S w))
        by (unfold reach; destruct earlier; lia).
      lia.
Qed.

Lemma reach_lt (earlier : bool) (n i w : nat) :
  i < n -> reach earlier n i w < n.
Proof.
  intros Hi. unfold reach. destruct earlier; lia.
Qed.

(** ** The loop of [csr_cum_sum] *)

Section CumSum.

Variable m : csr_matrix.
Variable company : list string.
Variable above : bool.

Hypothesis Hwf : WF m.
Hypothesis Hrows : 1 <= nrows m.
Hypothesis Hlen : length company = nrows m.
Hypothesis Hind : indicator m.
Hypothesis Hsmall : (Z.of_nat (nrows m) < 2 ^ 63)%Z.

(** The masked entry of step [d] is the term of that step: where the
    rotation wraps around, the shifted row is empty. *)
Lemma masked_entry (d i c : nat) :
  i < nrows m ->
  mul64 (nth i (is_same_after_shift company
                  (Z.of_nat d * (if above then 1 else -1))) 0%Z)
        (csr_get (iter_shift m above d) i c)
  = step_term m company above d i c.
Proof.
  intros Hi. rewrite csr_get_iter_shift by assumption.
  unfold step_term.
  destruct (neighbour above (nrows m) i d) as [j|] eqn:Ej.
  - change (Z.of_nat d * (if above then 1 else -1))%Z with (signed above d).
    rewrite (mask_at_neighbour company above i d j)
      by (rewrite Hlen; assumption).
    destruct (String.eqb _ _).
    + apply mul64_1_l, Hind. eapply neighbour_lt; eauto.
    + apply mul64_0_l.
  - apply mul64_0_r.
Qed.

Lemma add64_window_sum (k i c : nat) :
  i < nrows m ->
  add64 (window_sum m company above k i c)
        (step_term m company above (S k) i c)
  = window_sum m company above (S k) i c.
Proof.
  intros Hi. unfold add64. apply wrap64_small.
  pose proof (window_sum_bounds m company above (S k) i c Hind Hi) as Hb.
  pose proof (reach_lt above (nrows m) i (S k) Hi) as Hr.
  change (2 ^ 63)%Z with 9223372036854775808%Z in *. lia.
Qed.

Lemma cum_sum_loop_spec (steps k : nat) :
  cum_sum_loop company above steps (Z.of_nat (S k))
               (iter_shift m above k)
               (csr_of_dense (nrows m) (ncols m)
                             (window_sum m company above k))
  = Ok (csr_of_dense (nrows m) (ncols m)
                     (window_sum m company above (k + steps))).
Proof.
  revert k. induction steps as [|steps IH]; intros k.
  - cbn [cum_sum_loop]. now rewrite Nat.add_0_r.
  - cbn [cum_sum_loop].
    pose proof (iter_shift_shape m above k) as [Hr Hc].
    pose proof (iter_shift_shape m above (S k)) as [Hr' Hc'].
    rewrite csr_shift_eq
      by (try apply WF_iter_shift; try rewrite Hr; assumption).
    rewrite <- iter_shift_S. cbn [bind].
    unfold col_multiply.
    rewrite is_same_after_shift_length, Hlen, Hr', Hc', Nat.eqb_refl.
    cbn [bind]. unfold csr_add.
    change (nrows (csr_of_dense ?n ?k ?f)) with n.
    change (ncols (csr_of_dense ?n ?k ?f)) with k.
    rewrite !Nat.eqb_refl. cbn [andb bind].
    rewrite (csr_of_dense_ext (nrows m) (ncols m) _
               (window_sum m company above (S k))).
    + replace (Z.of_nat (S k) + 1)%Z with (Z.of_nat (S (S k))) by lia.
      replace (k + S steps) with (S k + steps) by lia. apply IH.
    + intros i c Hi Hc0. rewrite !csr_get_of_dense by exact Hi.
      destruct (Nat.ltb_spec c (ncols m)); [|lia].
      rewrite masked_entry by exact Hi.
      now apply add64_window_sum.
Qed.

Lemma csr_cum_sum_spec (window_size : Z) :
  csr_cum_sum m company window_size above
  = Ok (csr_of_dense (nrows m) (ncols m)
          (window_sum m company above (Z.to_nat window_size))).
Proof.
  unfold csr_cum_sum, shape. rewrite csr_zeros_dense.
  apply (cum_sum_loop_spec (Z.to_nat window_size) 0).
Qed.

End CumSum.

(** ** Well-formedness of a matrix stored row by row *)

Lemma indptr_of_rows_step (rows : list (list (nat * Z))) (i : nat) :
  i < length rows ->
  nth (S i) (0 :: np_cumsum 0 (map (@length (nat * Z)) rows)) 0
  = nth i (0 :: np_cumsum 0 (map (@length (nat * Z)) rows)) 0
    + length (nth i rows []).
Proof.
  revert i. induction rows as [|r rs IH]; intros i Hi; [simpl in Hi; lia|].
  simpl in Hi. destruct i as [|j].
  - rewrite indptr_of_rows_cons by lia. cbn [nth]. lia.
  - rewrite !indptr_of_rows_cons by lia. rewrite IH by lia.
    cbn [nth]. lia.
Qed.

Lemma indptr_of_rows_last (rows : list (list (nat * Z))) :
  nth (length rows) (0 :: np_cumsum 0 (map (@length (nat * Z)) rows)) 0
  = length (flat_map (map fst) rows).
Proof.
  induction rows as [|r rs IH]; [reflexivity|].
  cbn [length]. rewrite indptr_of_rows_cons by lia.
  cbn [flat_map]. rewrite length_app, length_map, IH. reflexivity.
Qed.

Lemma flat_map_fst_snd_length (rows : list (list (nat * Z))) :
  length (flat_map (map fst) rows) = length (flat_map (map snd) rows).
Proof.
  induction rows as [|r rs IH]; [reflexivity|].
  cbn [flat_map]. rewrite !length_app, !length_map, IH. reflexivity.
Qed.

Lemma WF_of_rows (n k : nat) (rows : list (list (nat * Z))) :
  length rows = n ->
  (forall r, In r rows ->
             Forall (fun c => c < k) (map fst r)
             /\ nondecreasing (map fst r) = true) ->
  WF (csr_of_rows n k rows).
Proof.
  intros Hn Hrows.
  assert (Hstep : forall i, S i < length (indptr (csr_of_rows n k rows)) ->
            nth i (indptr (csr_of_rows n k rows)) 0
            <= nth (S i) (indptr (csr_of_rows n k rows)) 0).
  { cbn [csr_of_rows indptr length].
    rewrite np_cumsum_length, length_map. intros i Hi.
    rewrite indptr_of_rows_step by lia. lia. }
  constructor.
  - cbn [csr_of_rows indptr nrows length].
    rewrite np_cumsum_length, length_map. lia.
  - reflexivity.
  - intros i j Hij Hj. apply step_monotone; [exact Hstep | exact Hij |].
    cbn [csr_of_rows indptr nrows length] in *.
    rewrite np_cumsum_length, length_map. lia.
  - cbn [csr_of_rows indptr nrows indices]. rewrite <- Hn.
    apply indptr_of_rows_last.
  - cbn [csr_of_rows indices data]. apply flat_map_fst_snd_length.
  - cbn [csr_of_rows indices ncols]. apply Forall_flat_map.
    apply Forall_forall. intros r Hr. apply (Hrows r Hr).
  - intros i Hi. cbn [csr_of_rows nrows] in Hi.
    rewrite getrow_of_rows by lia.
    apply (Hrows (nth i rows [])). apply nth_In. lia.
Qed.

(** ** The encoder *)

Lemma table_lookup_Some (cats : list string) (s : nat) (w : string) (c : nat) :
  table_lookup cats s w = Some c ->
  s <= c < s + length cats /\ nth (c - s) cats EmptyString = w.
Proof.
  revert s. induction cats as [|x t IH]; intros s; [discriminate|].
  cbn [table_lookup length].
  destruct (table_lookup t (S s) w) as [j|] eqn:Ej.
  - intros [= <-]. apply IH in Ej. destruct Ej as [Hb Hn].
    split; [lia|]. replace (j - s) with (S (j - S s)) by lia. exact Hn.
  - destruct (String.eqb_spec x w) as [->|Hne]; [|discriminate].
    intros [= <-]. split; [lia|]. now rewrite Nat.sub_diag.
Qed.

Lemma table_lookup_None (cats : list string) (s : nat) (w : string) :
  ~ In w cats -> table_lookup cats s w = None.
Proof.
  revert s. induction cats as [|x t IH]; intros s Hw; [reflexivity|].
  cbn [table_lookup]. rewrite IH by (intros H; apply Hw; now right).
  destruct (String.eqb_spec x w) as [->|Hne]; [|reflexivity].
  exfalso. apply Hw. now left.
Qed.

Lemma table_lookup_NoDup (cats : list string) (s c : nat) :
  NoDup cats -> c < length cats ->
  table_lookup cats s (nth c cats EmptyString) = Some (s + c).
Proof.
  intros Hnd. revert s c.
  induction Hnd as [|x t Hx Hnd IH]; intros s c Hc; [simpl in Hc; lia|].
  cbn [table_lookup]. destruct c as [|c'].
  - cbn [nth]. rewrite table_lookup_None by exact Hx.
    rewrite String.eqb_refl. f_equal. lia.
  - cbn [nth]. simpl in Hc. rewrite IH by lia. f_equal. lia.
Qed.

Lemma fit_transform_encoded (cats words : list string) :
  0 < length words -> 0 < length cats ->
  fit_transform cats words = Ok (encoded cats words).
Proof.
  destruct words; [simpl; lia|]. destruct cats; [simpl; lia|].
  reflexivity.
Qed.

Lemma encoded_of_rows (cats words : list string) :
  encoded cats words
  = csr_of_rows (length words) (length cats) (map (encoded_row cats) words).
Proof.
  unfold encoded, csr_of_rows. f_equal.
  - f_equal. f_equal. rewrite !map_map. apply map_ext.
    intros w. unfold encoded_row. destruct (table_lookup cats 0 w); reflexivity.
  - induction words as [|w ws IH]; [reflexivity|].
    cbn [map flat_map]. rewrite IH. f_equal.
    unfold encoded_row. destruct (table_lookup cats 0 w); reflexivity.
  - induction words as [|w ws IH]; [reflexivity|].
    cbn [map flat_map]. rewrite map_app, IH. f_equal.
    unfold encoded_row. destruct (table_lookup cats 0 w); reflexivity.
Qed.

Lemma getrow_encoded (cats words : list string) (i : nat) :
  i < length words ->
  getrow (encoded cats words) i
  = encoded_row cats (nth i words EmptyString).
Proof.
  intros Hi. rewrite encoded_of_rows, getrow_of_rows
    by (rewrite length_map; exact Hi).
  rewrite (nth_indep _ [] (encoded_row cats EmptyString))
    by (rewrite length_map; exact Hi).
  apply (map_nth (encoded_row cats)).
Qed.

Lemma WF_encoded (cats words : list string) : WF (encoded cats words).
Proof.
  rewrite encoded_of_rows. apply WF_of_rows; [apply length_map|].
  intros r Hr. apply in_map_iff in Hr. destruct Hr as [w [<- _]].
  unfold encoded_row. destruct (table_lookup cats 0 w) as [c|] eqn:Ec.
  - apply table_lookup_Some in Ec. split; [|reflexivity].
    repeat constructor. simpl. lia.
  - split; [constructor | reflexivity].
Qed.

Lemma indicator_encoded (cats words : list string) :
  indicator (encoded cats words).
Proof.
  intros i c Hi. cbn [encoded nrows] in Hi.
  unfold csr_get. rewrite getrow_encoded by exact Hi.
  unfold encoded_row. destruct (table_lookup cats 0 _) as [c'|].
  - cbn. destruct (c' =? c); auto.
  - now left.
Qed.

(** With a duplicate-free vocabulary the encoded entry is the comparison
    of the word with the category. *)
Lemma csr_get_encoded (cats words : list string) (i c : nat) :
  NoDup cats -> i < length words -> c < length cats ->
  csr_get (encoded cats words) i c
  = if String.eqb (nth i words EmptyString) (nth c cats EmptyString)
    then 1%Z else 0%Z.
Proof.
  intros Hnd Hi Hc. unfold csr_get. rewrite getrow_encoded by exact Hi.
  unfold encoded_row.
  pose proof (table_lookup_NoDup cats 0 c Hnd Hc) as Hlook.
  destruct (String.eqb_spec (nth i words EmptyString) (nth c cats EmptyString))
    as [He|Hne].
  - rewrite He, Hlook. cbn. now rewrite Nat.eqb_refl.
  - destruct (table_lookup cats 0 (nth i words EmptyString)) as [c'|] eqn:Ec;
      [|reflexivity].
    apply table_lookup_Some in Ec. destruct Ec as [_ Ec].
    rewrite Nat.sub_0_r in Ec. cbn.
    destruct (Nat.eqb_spec c' c) as [->|]; [congruence | reflexivity].
Qed.

(** ** The assembled output *)

Lemma extract_features_spec (m : csr_matrix) (company : list string)
      (window_size : Z) :
  WF m -> 1 <= nrows m -> length company = nrows m -> indicator m ->
  (Z.of_nat (nrows m) < 2 ^ 63)%Z ->
  extract_features m company window_size
  = Ok (csr_of_dense (nrows m) (ncols m + ncols m)
          (count_entry m company (Z.to_nat window_size))).
Proof.
  intros Hwf Hn Hlen Hind Hsmall. unfold extract_features.
  rewrite !csr_cum_sum_spec by assumption.
  cbn [bind]. unfold hstack.
  change (nrows (csr_of_dense ?n ?k ?f)) with n.
  change (ncols (csr_of_dense ?n ?k ?f)) with k.
  rewrite Nat.eqb_refl.
  f_equal. apply csr_of_dense_ext. intros i c Hi Hc.
  unfold count_entry. rewrite !csr_get_of_dense by exact Hi.
  destruct (Nat.ltb_spec c (ncols m)) as [Hlt|Hge].
  - destruct (Nat.ltb_spec c (ncols m)); [reflexivity | lia].
  - destruct (Nat.ltb_spec (c - ncols m) (ncols m)); [reflexivity | lia].
Qed.

Lemma features_spec (cats words company : list string) (window_size : Z) :
  0 < length words -> 0 < length cats -> length company = length words ->
  (Z.of_nat (length words) < 2 ^ 63)%Z ->
  features cats words company window_size
  = Ok (csr_of_dense (length words) (length cats + length cats)
          (feature_entry cats words company (Z.to_nat window_size))).
Proof.
  intros Hn Hk Hlen Hsmall. unfold features.
  rewrite fit_transform_encoded by assumption. cbn [bind].
  apply (extract_features_spec (encoded cats words) company window_size).
  - apply WF_encoded.
  - exact Hn.
  - exact Hlen.
  - apply indicator_encoded.
  - exact Hsmall.
Qed.

Lemma features_entry (cats words company : list string) (w i col : nat) :
  i < length words -> col < length cats + length cats ->
  csr_get (csr_of_dense (length words) (length cats + length cats)
             (feature_entry cats words company w)) i col
  = feature_entry cats words company w i col.
Proof.
  intros Hi Hc. rewrite csr_get_of_dense by exact Hi.
  destruct (Nat.ltb_spec col (length cats + length cats)); [reflexivity | lia].
Qed.

Lemma feature_entry_column (cats words company : list string)
      (earlier : bool) (w i c : nat) :
  c < length cats ->
  feature_entry cats words company w i (feature_column (length cats) earlier c)
  = window_sum (encoded cats words) company earlier w i c.
Proof.
  intros Hc. unfold feature_entry, count_entry, feature_column.
  change (ncols (encoded cats words)) with (length cats). destruct earlier.
  - destruct (Nat.ltb_spec c (length cats)); [reflexivity | lia].
  - destruct (Nat.ltb_spec (length cats + c) (length cats)); [lia|].
    f_equal. lia.
Qed.

(** ** Counting positions *)

Lemma count_split {A : Type} (f g h : A -> bool) (l : list A) :
  (forall x, In x l -> f x = g x || h x) ->
  (forall x, In x l -> g x && h x = false) ->
  length (filter f l) = length (filter g l) + length (filter h l).
Proof.
  induction l as [|x t IH]; intros Hf Hd; [reflexivity|].
  cbn [filter]. rewrite (Hf x (or_introl eq_refl)).
  pose proof (Hd x (or_introl eq_refl)) as Hx.
  assert (IH' : length (filter f t)
                = length (filter g t) + length (filter h t)).
  { apply IH; intros y Hy; [apply Hf | apply Hd]; now right. }
  destruct (g x), (h x); cbn [orb length]; try discriminate; lia.
Qed.

Lemma count_ext {A : Type} (f g : A -> bool) (l : list A) :
  (forall x, In x l -> f x = g x) ->
  length (filter f l) = length (filter g l).
Proof.
  intros H. f_equal. apply filter_ext_in. exact H.
Qed.

Lemma count_none {A : Type} (f : A -> bool) (l : list A) :
  (forall x, In x l -> f x = false) -> length (filter f l) = 0.
Proof.
  induction l as [|x t IH]; intros H; [reflexivity|].
  cbn [filter]. rewrite (H x (or_introl eq_refl)).
  apply IH. intros y Hy. apply H. now right.
Qed.

Lemma count_point (q : nat -> bool) (p s n : nat) :
  length (filter (fun j => (j =? p) && q j) (seq s n))
  = if (s <=? p) && (p <? s + n) && q p then 1 else 0.
Proof.
  revert s. induction n as [|n IH]; intros s.
  - cbn [seq filter length].
    destruct (Nat.leb_spec s p), (Nat.ltb_spec p (s + 0)); try lia;
      reflexivity.
  - cbn [seq filter]. destruct (Nat.eqb_spec s p) as [->|Hne].
    + cbn [andb]. rewrite Nat.leb_refl.
      destruct (Nat.ltb_spec p (p + S n)); [|lia]. cbn [andb].
      assert (Ht : length (filter (fun j => (j =? p) && q j) (seq (S p) n))
                   = 0).
      { apply count_none. intros j Hj. apply in_seq in Hj.
        destruct (Nat.eqb_spec j p); [lia | reflexivity]. }
      destruct (q p); cbn [length]; lia.
    + cbn [andb]. rewrite IH.
      destruct (Nat.leb_spec (S s) p), (Nat.leb_spec s p),
        (Nat.ltb_spec p (S s + n)), (Nat.ltb_spec p (s + S n));
        try lia; reflexivity.
Qed.

Lemma in_window_S (earlier : bool) (n w i j : nat) :
  i < n -> j < n ->
  in_window earlier (S w) i j
  = in_window earlier w i j
    || match neighbour earlier n i (S w) with
       | Some p => j =? p
       | None => false
       end.
Proof.
  intros Hi Hj. unfold in_window, neighbour. destruct earlier.
  - destruct (Nat.ltb_spec j i), (Nat.leb_spec (i - j) (S w)),
      (Nat.leb_spec (i - j) w), (Nat.leb_spec (S w) i);
      cbn [andb orb]; try lia; try reflexivity;
      destruct (Nat.eqb_spec j (i - S w)); lia || reflexivity.
  - destruct (Nat.ltb_spec i j), (Nat.leb_spec (j - i) (S w)),
      (Nat.leb_spec (j - i) w), (Nat.ltb_spec (i + S w) n);
      cbn [andb orb]; try lia; try reflexivity;
      destruct (Nat.eqb_spec j (i + S w)); lia || reflexivity.
Qed.

Lemma in_window_disjoint (earlier : bool) (n w i j p : nat) :
  neighbour earlier n i (S w) = Some p ->
  in_window earlier w i j && (j =? p) = false.
Proof.
  unfold in_window, neighbour. destruct earlier.
  - destruct (Nat.leb_spec (S w) i); [|discriminate]. intros [= <-].
    destruct (Nat.ltb_spec j i), (Nat.leb_spec (i - j) w),
      (Nat.eqb_spec j (i - S w)); cbn [andb]; lia || reflexivity.
  - destruct (Nat.ltb_spec (i + S w) n); [|discriminate]. intros [= <-].
    destruct (Nat.ltb_spec i j), (Nat.leb_spec (j - i) w),
      (Nat.eqb_spec j (i + S w)); cbn [andb]; lia || reflexivity.
Qed.

Lemma in_window_0 (earlier : bool) (i j : nat) :
  in_window earlier 0 i j = false.
Proof.
  unfold in_window. destruct earlier.
  - destruct (Nat.ltb_spec j i), (Nat.leb_spec (i - j) 0);
      cbn [andb]; lia || reflexivity.
  - destruct (Nat.ltb_spec i j), (Nat.leb_spec (j - i) 0);
      cbn [andb]; lia || reflexivity.
Qed.

Lemma window_count_0 (earlier : bool) (n i : nat) (q : nat -> bool) :
  window_count earlier n 0 i q = 0.
Proof.
  apply count_none. intros j _. now rewrite in_window_0.
Qed.

Lemma window_count_S (earlier : bool) (n w i : nat) (q : nat -> bool) :
  i < n ->
  window_count earlier n (S w) i q
  = window_count earlier n w i q
    + match neighbour earlier n i (S w) with
      | Some p => if q p then 1 else 0
      | None => 0
      end.
Proof.
  intros Hi. unfold window_count.
  destruct (neighbour earlier n i (S w)) as [p|] eqn:Ep.
  - rewrite (count_split _ (fun j => in_window earlier w i j && q j)
                         (fun j => (j =? p) && q j)).
    + f_equal. rewrite count_point.
      pose proof (neighbour_lt earlier n i (S w) p Hi Ep) as Hp.
      destruct (Nat.leb_spec 0 p), (Nat.ltb_spec p (0 + n)); try lia.
      reflexivity.
    + intros j Hj. apply in_seq in Hj.
      rewrite (in_window_S earlier n w i j), Ep by lia.
      destruct (in_window earlier w i j), (j =? p), (q j); reflexivity.
    + intros j Hj.
      pose proof (in_window_disjoint earlier n w i j p Ep) as Hd.
      destruct (in_window earlier w i j), (j =? p), (q j);
        try discriminate; reflexivity.
  - rewrite Nat.add_0_r. apply count_ext. intros j Hj. apply in_seq in Hj.
    rewrite (in_window_S earlier n w i j), Ep by lia.
    now rewrite orb_false_r.
Qed.

(** ** The accumulated count as a count of positions *)

Lemma window_sum_encoded (cats words company : list string) (earlier : bool)
      (w i c : nat) :
  NoDup cats -> c < length cats -> i < length words ->
  window_sum (encoded cats words) company earlier w i c
  = Z.of_nat (window_count earlier (length words) w i
                (same_group_label words company (nth c cats EmptyString) i)).
Proof.
  intros Hnd Hc Hi. induction w as [|w IH].
  - now rewrite window_count_0.
  - cbn [window_sum]. rewrite IH, window_count_S by exact Hi.
    rewrite Nat2Z.inj_add. f_equal.
    unfold step_term. change (nrows (encoded cats words)) with (length words).
    destruct (neighbour earlier (length words) i (S w)) as [p|] eqn:Ep;
      [|reflexivity].
    pose proof (neighbour_lt earlier (length words) i (S w) p Hi Ep) as Hp.
    unfold same_group_label. rewrite csr_get_encoded by assumption.
    destruct (String.eqb (nth i company EmptyString) _),
      (String.eqb (nth p words EmptyString) _); reflexivity.
Qed.

(** ** The positions of one company *)

Lemma seq_from (a len : nat) : seq a len = map (fun k => a + k) (seq 0 len).
Proof.
  induction a as [|a IH]; [now rewrite map_id|].
  rewrite <- seq_shift, IH, map_map. reflexivity.
Qed.

Lemma filter_all {A : Type} (f : A -> bool) (l : list A) :
  (forall x, In x l -> f x = true) -> filter f l = l.
Proof.
  induction l as [|x t IH]; intros H; [reflexivity|].
  cbn [filter]. rewrite (H x (or_introl eq_refl)). f_equal.
  apply IH. intros y Hy. apply H. now right.
Qed.

Lemma filter_none {A : Type} (f : A -> bool) (l : list A) :
  (forall x, In x l -> f x = false) -> filter f l = [].
Proof.
  intros H. apply length_zero_iff_nil. now apply count_none.
Qed.

Lemma seq_three (a len n : nat) :
  a + len <= n ->
  seq 0 n = seq 0 a ++ seq a len ++ seq (a + len) (n - (a + len)).
Proof.
  intros H. rewrite <- !seq_app. f_equal. lia.
Qed.

Lemma filter_interval (f : nat -> bool) (a len n : nat) :
  a + len <= n ->
  (forall j, j < n -> f j = (a <=? j) && (j <? a + len)) ->
  filter f (seq 0 n) = seq a len.
Proof.
  intros Hn Hf. rewrite (seq_three a len n Hn), !filter_app.
  rewrite (filter_none f (seq 0 a)), (filter_all f (seq a len)),
    (filter_none f (seq (a + len) _)).
  - now rewrite app_nil_r.
  - intros j Hj. apply in_seq in Hj. rewrite Hf by lia.
    destruct (Nat.leb_spec a j), (Nat.ltb_spec j (a + len));
      lia || reflexivity.
  - intros j Hj. apply in_seq in Hj. rewrite Hf by lia.
    destruct (Nat.leb_spec a j), (Nat.ltb_spec j (a + len));
      lia || reflexivity.
  - intros j Hj. apply in_seq in Hj. rewrite Hf by lia.
    destruct (Nat.leb_spec a j), (Nat.ltb_spec j (a + len));
      lia || reflexivity.
Qed.

Lemma restrict_positions {A : Type} (d : A) (company : list string)
      (g : string) (xs : list A) :
  length xs = length company ->
  restrict company g xs
  = map (fun j => nth j xs d)
        (filter (fun j => String.eqb (nth j company EmptyString) g)
                (seq 0 (length company))).
Proof.
  revert xs. induction company as [|x t IH]; intros xs Hlen.
  - reflexivity.
  - destruct xs as [|y ys]; [discriminate|].
    simpl in Hlen. injection Hlen as Hlen.
    assert (Ht : map (fun j => nth j (y :: ys) d)
                   (filter (fun j => String.eqb (nth j (x :: t) EmptyString) g)
                           (seq 1 (length t)))
                 = restrict t g ys).
    { rewrite <- seq_shift, filter_map_swap, map_map. rewrite (IH ys Hlen).
      reflexivity. }
    unfold restrict in *. cbn [combine filter fst length seq].
    change (nth 0 (x :: t) EmptyString) with x.
    destruct (String.eqb x g); cbn [map snd]; rewrite Ht; reflexivity.
Qed.

Lemma contiguous_tail (x : string) (t : list string) :
  contiguous (x :: t) -> contiguous t.
Proof.
  intros H i j k Hij Hjk Hk. apply (H (S i) (S j) (S k)); simpl; lia.
Qed.

Lemma run_length_le (g : string) (t : list string) :
  run_length g t <= length t.
Proof.
  induction t as [|y t IH]; simpl; [lia|]. destruct (String.eqb y g); lia.
Qed.

Lemma run_length_in (g : string) (t : list string) (j : nat) :
  j < run_length g t -> nth j t EmptyString = g.
Proof.
  revert j. induction t as [|y t IH]; intros j Hj; [simpl in Hj; lia|].
  cbn [run_length] in Hj. destruct (String.eqb_spec y g) as [->|]; [|lia].
  destruct j as [|j]; [reflexivity|]. cbn [nth]. apply IH. lia.
Qed.

Lemma run_length_stop (g : string) (t : list string) :
  run_length g t < length t -> nth (run_length g t) t EmptyString <> g.
Proof.
  induction t as [|y t IH]; intros H; [simpl in H; lia|].
  cbn [run_length] in *. destruct (String.eqb_spec y g) as [->|Hne].
  - cbn [nth]. apply IH. simpl in H. lia.
  - exact Hne.
Qed.

Lemma run_length_all (g : string) (t : list string) (j : nat) :
  contiguous (g :: t) -> j < length t -> nth j t EmptyString = g ->
  j < run_length g t.
Proof.
  intros Hc Hj Hg. destruct (Nat.lt_ge_cases j (run_length g t)) as [|Hge];
    [assumption|].
  exfalso. apply (run_length_stop g t); [lia|].
  apply (Hc 0 (S (run_length g t)) (S j)); simpl; try lia.
  now rewrite Hg.
Qed.

Lemma group_interval (company : list string) (g : string) :
  contiguous company -> In g company ->
  exists a len,
    0 < len /\ a + len <= length company
    /\ forall j, j < length company ->
         String.eqb (nth j company EmptyString) g
         = (a <=? j) && (j <? a + len).
Proof.
  induction company as [|x t IH]; intros Hc Hin; [destruct Hin|].
  destruct (String.eqb_spec x g) as [->|Hne].
  - exists 0, (S (run_length g t)).
    pose proof (run_length_le g t) as Hle.
    split; [lia|]. split; [simpl; lia|].
    intros [|j] Hj.
    + cbn [nth]. now rewrite String.eqb_refl.
    + cbn [nth]. simpl in Hj.
      destruct (Nat.ltb_spec (S j) (0 + S (run_length g t))) as [Hlt|Hge].
      * cbn [Nat.leb andb]. apply String.eqb_eq, run_length_in. lia.
      * cbn [Nat.leb andb]. apply String.eqb_neq. intros Hg.
        pose proof (run_length_all g t j Hc ltac:(lia) Hg). lia.
  - destruct Hin as [He|Hin]; [congruence|].
    destruct (IH (contiguous_tail x t Hc) Hin) as [a [len [Hl [Hb Hf]]]].
    exists (S a), len. split; [exact Hl|]. split; [simpl; lia|].
    intros [|j] Hj.
    + cbn [nth Nat.leb andb]. now apply String.eqb_neq.
    + cbn [nth]. simpl in Hj. rewrite Hf by lia.
      destruct (Nat.leb_spec a j), (Nat.leb_spec (S a) (S j)),
        (Nat.ltb_spec j (a + len)), (Nat.ltb_spec (S j) (S a + len));
        lia || reflexivity.
Qed.

Lemma in_window_shift (earlier : bool) (w a i j : nat) :
  in_window earlier w (a + i) (a + j) = in_window earlier w i j.
Proof.
  unfold in_window. destruct earlier.
  - destruct (Nat.ltb_spec (a + j) (a + i)), (Nat.ltb_spec j i),
      (Nat.leb_spec (a + i - (a + j)) w), (Nat.leb_spec (i - j) w);
      lia || reflexivity.
  - destruct (Nat.ltb_spec (a + i) (a + j)), (Nat.ltb_spec i j),
      (Nat.leb_spec (a + j - (a + i)) w), (Nat.leb_spec (j - i) w);
      lia || reflexivity.
Qed.

Lemma nth_map_seq {A : Type} (f : nat -> A) (a len j : nat) (d : A) :
  j < len -> nth j (map f (seq a len)) d = f (a + j).
Proof.
  intros Hj. rewrite (nth_indep _ d (f 0)) by (now rewrite length_map, length_seq).
  rewrite map_nth, seq_nth by exact Hj. reflexivity.
Qed.

Lemma column_nth (m : csr_matrix) (c i : nat) :
  i < nrows m -> nth i (column m c) 0%Z = csr_get m i c.
Proof.
  intros Hi. unfold column.
  rewrite (nth_map_seq (fun i => csr_get m i c)) by exact Hi. reflexivity.
Qed.

(** Within the run [a .. a + len) of one company, the count over the
    whole stream is the count within the run. *)
Lemma window_count_group (words company : list string) (g c : string)
      (earlier : bool) (w a len k : nat) :
  a + len <= length company -> k < len ->
  (forall j, j < length company ->
     String.eqb (nth j company EmptyString) g = (a <=? j) && (j <? a + len)) ->
  window_count earlier (length company) w (a + k)
               (same_group_label words company c (a + k))
  = length (filter (fun j => in_window earlier w k j
                             && String.eqb (nth (a + j) words EmptyString) c)
                   (seq 0 len)).
Proof.
  intros Hb Hk Hf.
  assert (Hg : nth (a + k) company EmptyString = g).
  { apply String.eqb_eq. rewrite Hf by lia.
    destruct (Nat.leb_spec a (a + k)), (Nat.ltb_spec (a + k) (a + len));
      lia || reflexivity. }
  assert (Hq : forall j, j < length company ->
             same_group_label words company c (a + k) j
             = (a <=? j) && (j <? a + len)
               && String.eqb (nth j words EmptyString) c).
  { intros j Hj. unfold same_group_label.
    rewrite Hg, String.eqb_sym, Hf by exact Hj. reflexivity. }
  unfold window_count.
  rewrite (seq_three a len (length company) Hb), !filter_app, !length_app.
  rewrite (count_none _ (seq 0 a)), (count_none _ (seq (a + len) _)).
  - rewrite Nat.add_0_l, Nat.add_0_r, seq_from, filter_map_swap, length_map.
    apply count_ext. intros j Hj. apply in_seq in Hj.
    rewrite in_window_shift, Hq by lia.
    destruct (Nat.leb_spec a (a + j)), (Nat.ltb_spec (a + j) (a + len));
      try lia. reflexivity.
  - intros j Hj. apply in_seq in Hj. rewrite Hq by lia.
    destruct (Nat.leb_spec a j), (Nat.ltb_spec j (a + len)); try lia;
      cbn [andb]; now rewrite andb_false_r.
  - intros j Hj. apply in_seq in Hj. rewrite Hq by lia.
    destruct (Nat.leb_spec a j), (Nat.ltb_spec j (a + len)); try lia;
      cbn [andb]; now rewrite andb_false_r.
Qed.

(** C1. For a token stream whose company identifiers form contiguous
    runs, a duplicate-free vocabulary, a window of [W >= 1] positions, a
    company [g], a category [c] and either direction: the extraction
    returns the (N, 2K) output, and its column for [c] in that direction,
    restricted to the positions of [g], is the count obtained by scanning
    the labels of [g] directly with a sliding window of [W] positions. *)
Theorem features_direct_scan (cats words company : list string) (W : nat)
        (g : string) (c : nat) (earlier : bool) :
  length company = length words ->
  contiguous company ->
  NoDup cats ->
  1 <= W ->
  In g company ->
  c < length cats ->
  (Z.of_nat (length words) < 2 ^ 63)%Z ->
  exists X,
    features cats words company (Z.of_nat W) = Ok X
    /\ shape X = (length words, 2 * length cats)
    /\ restrict company g (column X (feature_column (length cats) earlier c))
       = direct_scan (restrict company g words) W earlier
                     (nth c cats EmptyString).
Proof.
  intros Hlen Hcont Hnd HW Hin Hc Hsmall.
  assert (Hn : 0 < length words).
  { rewrite <- Hlen. destruct company; [destruct Hin | simpl; lia]. }
  eexists. split; [apply features_spec; assumption || lia|].
  rewrite Nat2Z.id. split; [unfold shape; cbn; f_equal; lia|].
  destruct (group_interval company g Hcont Hin) as [a [len [Hl [Hb Hf]]]].
  set (X := csr_of_dense _ _ _).
  assert (HX : nrows X = length company) by (now rewrite Hlen).
  rewrite (restrict_positions 0%Z company g (column X _))
    by (unfold column; now rewrite length_map, length_seq).
  rewrite (restrict_positions EmptyString company g words) by (now symmetry).
  rewrite (filter_interval _ a len (length company) Hb Hf).
  unfold direct_scan. rewrite length_map, length_seq.
  rewrite (seq_from a len) at 1. rewrite map_map.
  apply map_ext_in. intros k Hk. apply in_seq in Hk.
  rewrite column_nth by lia. unfold X.
  rewrite features_entry
    by (try lia; unfold feature_column; destruct earlier; lia).
  rewrite feature_entry_column, window_sum_encoded by (assumption || lia).
  unfold direct_count. rewrite length_map, length_seq. f_equal.
  rewrite <- Hlen.
  rewrite (window_count_group words company g (nth c cats EmptyString)
             earlier W a len k) by (assumption || lia).
  apply count_ext. intros j Hj. apply in_seq in Hj.
  rewrite (nth_map_seq (fun j => nth j words EmptyString)) by lia.
  reflexivity.
Qed.

Lemma contiguousb_sound (company : list string) :
  contiguousb company = true -> contiguous company.
Proof.
  intros H i j k Hij Hjk Hk Heq. unfold contiguousb in H.
  rewrite forallb_forall in H.
  specialize (H i ltac:(apply in_seq; lia)).
  rewrite forallb_forall in H.
  specialize (H k ltac:(apply in_seq; lia)).
  rewrite Heq, String.eqb_refl in H. cbn [implb] in H.
  rewrite forallb_forall in H.
  specialize (H j ltac:(apply in_seq; lia)).
  apply String.eqb_eq in H. congruence.
Qed.

Lemma features_direct_scan_witness :
  length two_company = length two_words
  /\ contiguous two_company
  /\ NoDup sample_cats
  /\ 1 <= 5
  /\ In (nth 3 two_company EmptyString) two_company
  /\ 0 < length sample_cats
  /\ (Z.of_nat (length two_words) < 2 ^ 63)%Z
  /\ exists X,
       features sample_cats two_words two_company (Z.of_nat 5) = Ok X
       /\ shape X = (length two_words, 2 * length sample_cats)
       /\ restrict two_company (nth 3 two_company EmptyString)
                   (column X (feature_column (length sample_cats) true 0))
          = direct_scan
              (restrict two_company (nth 3 two_company EmptyString) two_words)
              5 true (nth 0 sample_cats EmptyString).
Proof.
  assert (Hc : contiguous two_company)
    by (apply contiguousb_sound; reflexivity).
  assert (Hd : NoDup sample_cats)
    by (repeat constructor; simpl; intuition discriminate).
  assert (Hg : In (nth 3 two_company EmptyString) two_company)
    by (simpl; auto).
  split; [reflexivity|]. split; [exact Hc|]. split; [exact Hd|].
  split; [lia|]. split; [exact Hg|]. split; [simpl; lia|].
  split; [reflexivity|].
  apply (features_direct_scan sample_cats two_words two_company 5
           (nth 3 two_company EmptyString) 0 true);
    [reflexivity | exact Hc | exact Hd | lia | exact Hg | simpl; lia
     | reflexivity].
Defined.

(** ** One-hot matrices *)

Lemma Forall_slice {A : Type} (P : A -> Prop) (l : list A) (lo hi : nat) :
  Forall P l -> Forall P (slice l lo hi).
Proof.
  intros H. unfold slice. now apply Forall_firstn, Forall_skipn.
Qed.

Lemma one_hot_WF (m : csr_matrix) : one_hot m = true -> WF m.
Proof.
  unfold one_hot. intros H.
  apply andb_prop in H. destruct H as [H _].
  apply andb_prop in H. destruct H as [H _].
  now apply well_formed_WF.
Qed.

Lemma one_hot_indicator (m : csr_matrix) : one_hot m = true -> indicator m.
Proof.
  unfold one_hot. intros H i c Hi.
  apply andb_prop in H. destruct H as [H Hrow].
  apply andb_prop in H. destruct H as [_ Hdata].
  rewrite forallb_forall in Hrow.
  specialize (Hrow i ltac:(apply in_seq; lia)). apply Nat.leb_le in Hrow.
  assert (Hone : Forall (fun e => snd e = 1%Z) (getrow m i)).
  { apply Forall_forall. intros [c' v] He. unfold getrow in He.
    apply in_combine_r in He.
    assert (Hall : Forall (fun v => v = 1%Z) (data m)).
    { apply Forall_forall. intros x Hx. rewrite forallb_forall in Hdata.
      now apply Z.eqb_eq, Hdata. }
    apply (Forall_slice _ _ (nth i (indptr m) 0) (nth (S i) (indptr m) 0)) in Hall.
    rewrite Forall_forall in Hall. now apply Hall. }
  unfold csr_get. destruct (getrow m i) as [|[c' v] [|e r]].
  - now left.
  - inversion Hone as [|? ? Hv _]; subst. simpl in Hv. subst v.
    cbn. destruct (c' =? c); auto.
  - simpl in Hrow. lia.
Qed.

(** ** Windows without a neighbour of the same company *)

Lemma window_sum_zero (m : csr_matrix) (company : list string)
      (earlier : bool) (w i c : nat) :
  (forall d, 1 <= d -> d <= w -> step_term m company earlier d i c = 0%Z) ->
  window_sum m company earlier w i c = 0%Z.
Proof.
  induction w as [|w IH]; intros H; [reflexivity|].
  cbn [window_sum]. rewrite IH, H by (try intros d ? ?; try apply H; lia).
  reflexivity.
Qed.

Lemma step_term_other_company (m : csr_matrix) (company : list string)
      (earlier : bool) (d i c : nat) :
  (forall j, neighbour earlier (nrows m) i d = Some j ->
             nth i company EmptyString <> nth j company EmptyString) ->
  step_term m company earlier d i c = 0%Z.
Proof.
  intros H. unfold step_term.
  destruct (neighbour earlier (nrows m) i d) as [j|]; [|reflexivity].
  destruct (String.eqb_spec (nth i company EmptyString)
                            (nth j company EmptyString)) as [He|];
    [|reflexivity].
  exfalso. now apply (H j).
Qed.

Lemma first_of_group_alone (company : list string) (i j : nat) :
  contiguous company -> first_of_group company i ->
  i < length company -> j < i ->
  nth i company EmptyString <> nth j company EmptyString.
Proof.
  intros Hc [->|Hne] Hi Hj; [lia|]. intros He. apply Hne.
  rewrite (Hc j (i - 1) i); try lia; congruence.
Qed.

Lemma last_of_group_alone (company : list string) (i j : nat) :
  contiguous company -> last_of_group company i ->
  j < length company -> i < j ->
  nth i company EmptyString <> nth j company EmptyString.
Proof.
  intros Hc [He|Hne] Hj Hij; [lia|]. intros He. apply Hne.
  apply (Hc i (S i) j); try lia. exact He.
Qed.

Lemma window_sum_monotone (m : csr_matrix) (company : list string)
      (earlier : bool) (w w' i c : nat) :
  indicator m -> i < nrows m -> w <= w' ->
  (window_sum m company earlier w i c
   <= window_sum m company earlier w' i c)%Z.
Proof.
  intros Hind Hi Hw. induction Hw as [|w' Hw IH]; [lia|].
  cbn [window_sum].
  pose proof (step_term_01 m company earlier (S w') i c Hind Hi). lia.
Qed.

Lemma window_sum_beyond (m : csr_matrix) (company : list string)
      (earlier : bool) (w i c : nat) :
  i < nrows m -> nrows m <= w ->
  window_sum m company earlier w i c
  = window_sum m company earlier (nrows m) i c.
Proof.
  intros Hi Hw. induction Hw as [|w Hw IH]; [reflexivity|].
  cbn [window_sum]. rewrite IH, step_term_out; [lia|].
  unfold neighbour. destruct earlier.
  - destruct (Nat.leb_spec (S w) i); [lia | reflexivity].
  - destruct (Nat.ltb_spec (i + S w) (nrows m)); [lia | reflexivity].
Qed.

Lemma count_entry_column (m : csr_matrix) (company : list string)
      (earlier : bool) (w i c : nat) :
  c < ncols m ->
  count_entry m company w i (feature_column (ncols m) earlier c)
  = window_sum m company earlier w i c.
Proof.
  intros Hc. unfold count_entry, feature_column. destruct earlier.
  - destruct (Nat.ltb_spec c (ncols m)); [reflexivity | lia].
  - destruct (Nat.ltb_spec (ncols m + c) (ncols m)); [lia|].
    f_equal. lia.
Qed.

Lemma extract_features_entry (m : csr_matrix) (company : list string)
      (w i col : nat) :
  i < nrows m -> col < ncols m + ncols m ->
  csr_get (csr_of_dense (nrows m) (ncols m + ncols m)
             (count_entry m company w)) i col
  = count_entry m company w i col.
Proof.
  intros Hi Hc. rewrite csr_get_of_dense by exact Hi.
  destruct (Nat.ltb_spec col (ncols m + ncols m)); [reflexivity | lia].
Qed.

(** C2. In a company vector whose companies form contiguous runs, for
    every window of [W >= 1] positions (however long the neighbouring
    runs are): the count of earlier positions is 0 in every category at
    the first position of a run, whatever precedes it in the stream, and
    the count of later positions is 0 at the last position of a run. *)
Theorem no_cross_group_leakage (m : csr_matrix) (company : list string)
        (W i c : nat) :
  one_hot m = true ->
  length company = nrows m ->
  contiguous company ->
  1 <= W ->
  i < nrows m ->
  c < ncols m ->
  (Z.of_nat (nrows m) < 2 ^ 63)%Z ->
  exists X,
    extract_features m company (Z.of_nat W) = Ok X
    /\ (first_of_group company i ->
        csr_get X i (feature_column (ncols m) true c) = 0%Z)
    /\ (last_of_group company i ->
        csr_get X i (feature_column (ncols m) false c) = 0%Z).
Proof.
  intros Hoh Hlen Hcont HW Hi Hc Hsmall.
  eexists. split.
  - apply extract_features_spec; try assumption;
      [now apply one_hot_WF | lia | now apply one_hot_indicator].
  - rewrite Nat2Z.id. split; intros Hg.
    + rewrite extract_features_entry
        by (try assumption; unfold feature_column; lia).
      rewrite count_entry_column by exact Hc.
      apply window_sum_zero. intros d Hd _.
      apply step_term_other_company. intros j Hj.
      unfold neighbour in Hj.
      destruct (Nat.leb_spec d i); [|discriminate].
      injection Hj as <-.
      apply first_of_group_alone; try assumption; lia.
    + rewrite extract_features_entry
        by (try assumption; unfold feature_column; lia).
      rewrite count_entry_column by exact Hc.
      apply window_sum_zero. intros d Hd _.
      apply step_term_other_company. intros j Hj.
      unfold neighbour in Hj.
      destruct (Nat.ltb_spec (i + d) (nrows m)); [|discriminate].
      injection Hj as <-.
      apply last_of_group_alone; try assumption; lia.
Qed.

Lemma no_cross_group_leakage_witness :
  one_hot two_onehot = true
  /\ length two_company = nrows two_onehot
  /\ contiguous two_company
  /\ 1 <= 5
  /\ 3 < nrows two_onehot
  /\ 0 < ncols two_onehot
  /\ (Z.of_nat (nrows two_onehot) < 2 ^ 63)%Z
  /\ first_of_group two_company 3
  /\ exists X,
       extract_features two_onehot two_company (Z.of_nat 5) = Ok X
       /\ csr_get X 3 (feature_column (ncols two_onehot) true 0) = 0%Z.
Proof.
  assert (Hc : contiguous two_company)
    by (apply contiguousb_sound; reflexivity).
  assert (Hf : first_of_group two_company 3)
    by (right; simpl; discriminate).
  split; [reflexivity|]. split; [reflexivity|]. split; [exact Hc|].
  split; [lia|]. split; [simpl; lia|]. split; [simpl; lia|].
  split; [reflexivity|]. split; [exact Hf|].
  destruct (no_cross_group_leakage two_onehot two_company 5 3 0)
    as [X [HX [Hfirst _]]];
    [reflexivity | reflexivity | exact Hc | lia | simpl; lia | simpl; lia
     | reflexivity |].
  exists X. split; [exact HX | exact (Hfirst Hf)].
Defined.

(** C8. With the other inputs fixed, the accumulated count of every
    token, category and direction does not decrease when the window
    grows: for [W <= W'] every entry of the output for [W] is at most the
    entry of the output for [W']. *)
Theorem window_size_monotone (m : csr_matrix) (company : list string)
        (W W' i col : nat) :
  one_hot m = true ->
  length company = nrows m ->
  (Z.of_nat (nrows m) < 2 ^ 63)%Z ->
  W <= W' ->
  i < nrows m ->
  col < ncols m + ncols m ->
  exists X X',
    extract_features m company (Z.of_nat W) = Ok X
    /\ extract_features m company (Z.of_nat W') = Ok X'
    /\ (csr_get X i col <= csr_get X' i col)%Z.
Proof.
  intros Hoh Hlen Hsmall HW Hi Hcol.
  pose proof (one_hot_WF m Hoh) as Hwf.
  pose proof (one_hot_indicator m Hoh) as Hind.
  do 2 eexists.
  split; [apply extract_features_spec; assumption || lia|].
  split; [apply extract_features_spec; assumption || lia|].
  rewrite !Nat2Z.id, !extract_features_entry by assumption.
  unfold count_entry.
  destruct (col <? ncols m); now apply window_sum_monotone.
Qed.

Lemma window_size_monotone_witness :
  one_hot two_onehot = true
  /\ length two_company = nrows two_onehot
  /\ (Z.of_nat (nrows two_onehot) < 2 ^ 63)%Z
  /\ 1 <= 2
  /\ 2 < nrows two_onehot
  /\ 0 < ncols two_onehot + ncols two_onehot
  /\ exists X X',
       extract_features two_onehot two_company (Z.of_nat 1) = Ok X
       /\ extract_features two_onehot two_company (Z.of_nat 2) = Ok X'
       /\ (csr_get X 2 0 <= csr_get X' 2 0)%Z.
Proof.
  split; [reflexivity|]. split; [reflexivity|]. split; [reflexivity|].
  split; [lia|]. split; [simpl; lia|]. split; [simpl; lia|].
  apply (window_size_monotone two_onehot two_company 1 2 2 0);
    [reflexivity | reflexivity | reflexivity | lia | simpl; lia | simpl; lia].
Defined.

(** C9. For the single company with labels [a, b, c, a], the vocabulary
    [a, b, c] and a window of one position, the counts of earlier
    positions in category [a] at positions 0, 1, 2, 3 are 0, 1, 0, 0. *)
Theorem boundary_scenario :
  exists X,
    features sample_cats sample_words sample_company 1 = Ok X
    /\ column X (feature_column (length sample_cats) true 0)
       = [0; 1; 0; 0]%Z.
Proof.
  eexists. split; vm_compute; reflexivity.
Qed.

(** C7 does not hold: a window size of 0, a negative one and one beyond
    the length of the sequence are all accepted. *)
Lemma invalid_window_accepted :
  extract_features sample_onehot sample_company 0 = Ok (csr_zeros (4, 6))
  /\ extract_features sample_onehot sample_company (-3) = Ok (csr_zeros (4, 6))
  /\ exists X, extract_features sample_onehot sample_company 7 = Ok X.
Proof.
  split; [reflexivity|]. split; [reflexivity|].
  eexists. vm_compute. reflexivity.
Qed.

(** C7, as the code has it. The window size is never checked: for a
    one-hot matrix and a company vector of its length the extraction
    returns for every window size; a window size [<= 0] gives the all-zero
    matrix, and a window size beyond the length [N] of the sequence gives
    the output of the window size [N]. *)
Theorem window_size_unchecked (m : csr_matrix) (company : list string)
        (window_size : Z) :
  one_hot m = true ->
  1 <= nrows m ->
  length company = nrows m ->
  (Z.of_nat (nrows m) < 2 ^ 63)%Z ->
  exists X,
    extract_features m company window_size = Ok X
    /\ ((window_size <= 0)%Z -> X = csr_zeros (nrows m, ncols m + ncols m))
    /\ ((Z.of_nat (nrows m) <= window_size)%Z ->
        extract_features m company (Z.of_nat (nrows m)) = Ok X).
Proof.
  intros Hoh Hn Hlen Hsmall.
  pose proof (one_hot_WF m Hoh) as Hwf.
  pose proof (one_hot_indicator m Hoh) as Hind.
  eexists. split; [apply extract_features_spec; assumption|].
  split; intros HW.
  - rewrite csr_zeros_dense. apply csr_of_dense_ext. intros i c _ _.
    replace (Z.to_nat window_size) with 0 by lia.
    unfold count_entry. destruct (c <? ncols m); reflexivity.
  - rewrite extract_features_spec by assumption. f_equal.
    apply csr_of_dense_ext. intros i c Hi _. rewrite Nat2Z.id.
    unfold count_entry.
    destruct (c <? ncols m); symmetry; apply window_sum_beyond; lia.
Qed.

Lemma window_size_unchecked_witness :
  one_hot sample_onehot = true
  /\ 1 <= nrows sample_onehot
  /\ length sample_company = nrows sample_onehot
  /\ (Z.of_nat (nrows sample_onehot) < 2 ^ 63)%Z
  /\ exists X,
       extract_features sample_onehot sample_company 7 = Ok X
       /\ extract_features sample_onehot sample_company 4 = Ok X.
Proof.
  split; [reflexivity|]. split; [simpl; lia|]. split; [reflexivity|].
  split; [reflexivity|].
  destruct (window_size_unchecked sample_onehot sample_company 7)
    as [X [HX [_ Hbeyond]]];
    [reflexivity | simpl; lia | reflexivity | reflexivity |].
  exists X. split; [exact HX|]. apply Hbeyond. simpl. lia.
Defined.

(** ** The mask at the wrapped-around positions *)

Lemma wrapped_neighbour (earlier : bool) (n d i : nat) :
  i < n ->
  neighbour earlier n i d
  = if wrapped earlier n d i then None else Some (at_distance earlier i d).
Proof.
  intros Hi. unfold neighbour, wrapped, at_distance. destruct earlier.
  - destruct (Nat.leb_spec d i), (Nat.ltb_spec i d); lia || reflexivity.
  - destruct (Nat.ltb_spec (i + d) n), (Nat.leb_spec (n - d) i);
      lia || reflexivity.
Qed.

Lemma same_group_at_distance_length (v : list string) (d : nat)
      (earlier : bool) :
  length (same_group_at_distance v d earlier) = length v.
Proof.
  unfold same_group_at_distance.
  rewrite length_map, length_combine, length_seq, is_same_after_shift_length.
  lia.
Qed.

Lemma same_group_at_distance_nth (v : list string) (d : nat) (earlier : bool)
      (i : nat) :
  i < length v ->
  nth i (same_group_at_distance v d earlier) 0%Z
  = if wrapped earlier (length v) d i then 0%Z
    else nth i (is_same_after_shift v (signed earlier d)) 0%Z.
Proof.
  intros Hi. unfold same_group_at_distance.
  set (f := fun p : nat * Z =>
              if wrapped earlier (length v) d (fst p) then 0%Z else snd p).
  rewrite (nth_indep _ 0%Z (f (0, 0%Z)))
    by (rewrite length_map, length_combine, length_seq,
          is_same_after_shift_length; lia).
  rewrite map_nth, combine_nth
    by (now rewrite length_seq, is_same_after_shift_length).
  unfold f. cbn [fst snd]. now rewrite seq_nth.
Qed.

Lemma wrapped_row_empty (m : csr_matrix) (down : bool) (d i : nat) :
  WF m -> i < nrows m -> wrapped down (nrows m) d i = true ->
  getrow (iter_shift m down d) i = [].
Proof.
  intros H Hi Hw. rewrite getrow_iter_shift by assumption.
  now rewrite wrapped_neighbour, Hw by exact Hi.
Qed.

Lemma csr_shift_n_eq (m : csr_matrix) (down : bool) (d : nat) :
  WF m -> 1 <= nrows m -> csr_shift_n m down d = Ok (iter_shift m down d).
Proof.
  intros H Hn. induction d as [|d IH]; [reflexivity|].
  cbn [csr_shift_n]. rewrite IH. cbn [bind].
  rewrite csr_shift_eq; [reflexivity | now apply WF_iter_shift |].
  now rewrite (proj1 (iter_shift_shape m down d)).
Qed.

(** Masking the shifted matrix with the plain rotated comparison or with
    the comparison forced to false where it wraps gives one matrix. *)
Lemma col_multiply_masks (m : csr_matrix) (company : list string)
      (above : bool) (d : nat) :
  WF m -> length company = nrows m ->
  col_multiply (is_same_after_shift company (signed above d))
               (iter_shift m above d)
  = col_multiply (same_group_at_distance company d above)
                 (iter_shift m above d).
Proof.
  intros H Hlen. unfold col_multiply.
  pose proof (iter_shift_shape m above d) as [Hr Hc].
  rewrite is_same_after_shift_length, same_group_at_distance_length.
  rewrite Hlen, Hr, Nat.eqb_refl. f_equal.
  apply csr_of_dense_ext. intros i c Hi _.
  rewrite same_group_at_distance_nth by (rewrite Hlen; exact Hi).
  rewrite Hlen.
  destruct (wrapped above (nrows m) d i) eqn:Hw; [|reflexivity].
  unfold csr_get. rewrite wrapped_row_empty by assumption.
  cbn [row_entry fold_right]. now rewrite !mul64_0_r.
Qed.

Lemma cum_sum_loop_accumulate (m : csr_matrix) (company : list string)
      (above : bool) (steps : nat) :
  WF m -> 1 <= nrows m -> length company = nrows m ->
  forall k cumsum,
    nrows cumsum = nrows m -> ncols cumsum = ncols m ->
    exists R,
      cum_sum_loop company above steps (Z.of_nat (S k))
                   (iter_shift m above k) cumsum = Ok R
      /\ accumulate_loop company above steps (S k)
                         (iter_shift m above k) cumsum = Ok R.
Proof.
  intros H Hn Hlen. induction steps as [|steps IH]; intros k cumsum Hr Hc.
  - exists cumsum. split; reflexivity.
  - cbn [cum_sum_loop accumulate_loop].
    pose proof (iter_shift_shape m above k) as [Hrk Hck].
    pose proof (iter_shift_shape m above (S k)) as [Hr' Hc'].
    rewrite csr_shift_eq
      by (try apply WF_iter_shift; try rewrite Hrk; assumption).
    rewrite <- iter_shift_S. cbn [bind].
    change (Z.of_nat (S k) * (if above then 1 else -1))%Z
      with (signed above (S k)).
    rewrite (col_multiply_masks m company above (S k) H Hlen).
    unfold col_multiply.
    rewrite same_group_at_distance_length, Hlen, Hr', Hc', Nat.eqb_refl.
    cbn [bind]. unfold csr_add.
    change (nrows (csr_of_dense ?n ?k ?f)) with n.
    change (ncols (csr_of_dense ?n ?k ?f)) with k.
    rewrite Hr, Hc, !Nat.eqb_refl. cbn [andb bind].
    replace (Z.of_nat (S k) + 1)%Z with (Z.of_nat (S (S k))) by lia.
    apply IH; reflexivity.
Qed.

(** C10. For a well-formed matrix and a company vector of its length,
    [csr_cum_sum] with its plain rotated comparison returns what the
    accumulator returns whose mask is forced to false at the first
    (earlier) or last (later) [d] positions: after [d] calls of
    [csr_shift] the rows of the working copy at those positions are
    empty, so the comparisons that wrap around never contribute. *)
Theorem plain_mask_suffices (m : csr_matrix) (company : list string)
        (window_size : Z) (above : bool) :
  well_formed m = true ->
  1 <= nrows m ->
  length company = nrows m ->
  (exists R,
     csr_cum_sum m company window_size above = Ok R
     /\ accumulate m company window_size above = Ok R)
  /\ forall d, exists y,
       csr_shift_n m above d = Ok y
       /\ forall i, i < nrows m -> wrapped above (nrows m) d i = true ->
                    getrow y i = [].
Proof.
  intros Hwf Hn Hlen. apply well_formed_WF in Hwf. split.
  - unfold csr_cum_sum, accumulate.
    apply (cum_sum_loop_accumulate m company above (Z.to_nat window_size)
             Hwf Hn Hlen 0); reflexivity.
  - intros d. exists (iter_shift m above d).
    split; [now apply csr_shift_n_eq|].
    intros i Hi Hw. now apply wrapped_row_empty.
Qed.

Lemma plain_mask_suffices_witness :
  well_formed sample_onehot = true
  /\ 1 <= nrows sample_onehot
  /\ length sample_company = nrows sample_onehot
  /\ (exists R,
        csr_cum_sum sample_onehot sample_company 2 true = Ok R
        /\ accumulate sample_onehot sample_company 2 true = Ok R)
  /\ forall d, exists y,
       csr_shift_n sample_onehot true d = Ok y
       /\ forall i, i < nrows sample_onehot ->
                    wrapped true (nrows sample_onehot) d i = true ->
                    getrow y i = [].
Proof.
  split; [reflexivity|]. split; [simpl; lia|]. split; [reflexivity|].
  apply (plain_mask_suffices sample_onehot sample_company 2 true);
    [reflexivity | simpl; lia | reflexivity].
Defined.

(** C4 does not hold: in a single company, at distance 1, the first
    position of the "earlier" mask and the last position of the "later"
    mask wrap around and yet are true; the mask is not the one with the
    boundary forced to false. *)
Lemma is_same_after_shift_wraps :
  wrapped true (length sample_company) 1 0 = true
  /\ nth 0 (is_same_after_shift sample_company (signed true 1)) 0%Z = 1%Z
  /\ wrapped false (length sample_company) 1 3 = true
  /\ nth 3 (is_same_after_shift sample_company (signed false 1)) 0%Z = 1%Z
  /\ is_same_after_shift sample_company (signed true 1)
     <> same_group_at_distance sample_company 1 true.
Proof.
  repeat split; try reflexivity. vm_compute. discriminate.
Qed.

(** C4, as the code has it. [is_same_after_shift] is the plain rotated
    comparison: the mask has the length of the vector and entry [i] is
    true iff token [i] and the token at [(i - shift) mod N] are of one
    company, also at the wrapped-around boundary positions, which are not
    forced to false. Every other entry is true iff token [i] and the
    token [d] positions earlier, respectively later, share the company. *)
Theorem is_same_after_shift_rotated (v : list string) (d : nat)
        (earlier : bool) (i : nat) :
  1 <= d -> i < length v ->
  length (is_same_after_shift v (signed earlier d)) = length v
  /\ nth i (is_same_after_shift v (signed earlier d)) 0%Z
     = (if String.eqb
             (nth i v EmptyString)
             (nth (Z.to_nat ((Z.of_nat i - signed earlier d)
                             mod Z.of_nat (length v))) v EmptyString)
        then 1%Z else 0%Z)
  /\ (wrapped earlier (length v) d i = false ->
      (nth i (is_same_after_shift v (signed earlier d)) 0%Z = 1%Z
       <-> nth i v EmptyString
           = nth (at_distance earlier i d) v EmptyString)).
Proof.
  intros Hd Hi. split; [apply is_same_after_shift_length|].
  split; [now apply is_same_after_shift_nth|].
  intros Hw.
  rewrite (mask_at_neighbour v earlier i d (at_distance earlier i d))
    by (try rewrite wrapped_neighbour, Hw; auto).
  destruct (String.eqb_spec (nth i v EmptyString)
                            (nth (at_distance earlier i d) v EmptyString));
    split; intros; auto; discriminate || contradiction.
Qed.

Lemma is_same_after_shift_rotated_witness :
  1 <= 1 /\ 3 < length two_company
  /\ length (is_same_after_shift two_company (signed true 1))
     = length two_company
  /\ nth 3 (is_same_after_shift two_company (signed true 1)) 0%Z
     = (if String.eqb
             (nth 3 two_company EmptyString)
             (nth (Z.to_nat ((Z.of_nat 3 - signed true 1)
                             mod Z.of_nat (length two_company)))
                  two_company EmptyString)
        then 1%Z else 0%Z)
  /\ (wrapped true (length two_company) 1 3 = false ->
      (nth 3 (is_same_after_shift two_company (signed true 1)) 0%Z = 1%Z
       <-> nth 3 two_company EmptyString
           = nth (at_distance true 3 1) two_company EmptyString)).
Proof.
  split; [lia|]. split; [simpl; lia|].
  apply (is_same_after_shift_rotated two_company 1 true 3);
    [lia | simpl; lia].
Defined.

(** ** The encoder and duplicate labels *)

Lemma encoded_row_length (cats : list string) (w : string) :
  length (encoded_row cats w) <= 1.
Proof.
  unfold encoded_row. destruct (table_lookup cats 0 w); simpl; lia.
Qed.

Lemma one_hot_encoded (cats words : list string) :
  one_hot (encoded cats words) = true.
Proof.
  unfold one_hot.
  apply andb_true_intro; split; [apply andb_true_intro; split|].
  - apply well_formed_WF, WF_encoded.
  - cbn [encoded data]. apply forallb_forall. intros v Hv.
    apply in_map_iff in Hv. destruct Hv as [? [<- _]]. reflexivity.
  - apply forallb_forall. intros i Hi. apply in_seq in Hi.
    cbn [encoded nrows] in Hi. apply Nat.leb_le.
    rewrite getrow_encoded by lia. apply encoded_row_length.
Qed.

Lemma csr_get_encoded_label (cats words : list string) (i c : nat) :
  i < length words -> csr_get (encoded cats words) i c = 1%Z ->
  c < length cats /\ nth c cats EmptyString = nth i words EmptyString.
Proof.
  intros Hi. unfold csr_get. rewrite getrow_encoded by exact Hi.
  unfold encoded_row.
  destruct (table_lookup cats 0 (nth i words EmptyString)) as [c'|] eqn:Ec;
    [|discriminate].
  apply table_lookup_Some in Ec. destruct Ec as [Hb Ec].
  rewrite Nat.sub_0_r in Ec. cbn.
  destruct (Nat.eqb_spec c' c) as [<-|]; [|discriminate].
  intros _. split; [lia | exact Ec].
Qed.

(** C6 does not hold: a vocabulary that lists a label twice is encoded
    like any other, the word being marked in the column of the last
    occurrence of its label. *)
Lemma duplicate_vocabulary_accepted :
  ~ NoDup dup_cats
  /\ fit_transform dup_cats dup_words
     = Ok (mk_csr 3 3 [0; 1; 1; 2] [2; 1] [1; 1]%Z).
Proof.
  split; [|reflexivity].
  intros H. inversion H as [|x l Hx _]; subst. apply Hx. simpl. auto.
Qed.

(** C6, as the code has it. The encoder does not look for duplicate
    labels: for every non-empty vocabulary, with or without duplicates,
    and every non-empty token stream it returns a one-hot matrix of
    shape (N, K), in which an entry 1 at row [i], column [c] means that
    token [i] bears the label of category [c]. *)
Theorem fit_transform_any_vocabulary (cats words : list string) :
  0 < length words -> 0 < length cats ->
  exists m,
    fit_transform cats words = Ok m
    /\ shape m = (length words, length cats)
    /\ one_hot m = true
    /\ forall i c, i < length words -> csr_get m i c = 1%Z ->
         c < length cats /\ nth c cats EmptyString = nth i words EmptyString.
Proof.
  intros Hn Hk. exists (encoded cats words).
  split; [now apply fit_transform_encoded|].
  split; [reflexivity|].
  split; [apply one_hot_encoded|].
  intros i c. apply csr_get_encoded_label.
Qed.

Lemma fit_transform_any_vocabulary_witness :
  0 < length dup_words /\ 0 < length dup_cats
  /\ exists m,
       fit_transform dup_cats dup_words = Ok m
       /\ shape m = (length dup_words, length dup_cats)
       /\ one_hot m = true
       /\ forall i c, i < length dup_words -> csr_get m i c = 1%Z ->
            c < length dup_cats
            /\ nth c dup_cats EmptyString = nth i dup_words EmptyString.
Proof.
  split; [simpl; lia|]. split; [simpl; lia|].
  apply (fit_transform_any_vocabulary dup_cats dup_words); simpl; lia.
Defined.

(** * Further properties of the notebook's code *)

(** ** Shifting a matrix without rows *)

(** X1. [csr_shift] needs a row: on a matrix whose row pointers hold at
    most one value (no row) it raises [IndexError] in both directions. *)
Theorem csr_shift_no_rows (m : csr_matrix) (down : bool) :
  length (indptr m) <= 1 -> csr_shift m down = Raise IndexError.
Proof.
  intros H. unfold csr_shift, neg_index, index.
  destruct (indptr m) as [|p [|q t]]; [| |simpl in H; lia];
    destruct down; reflexivity.
Qed.

Lemma csr_shift_no_rows_witness :
  length (indptr (csr_zeros (0, 3))) <= 1
  /\ csr_shift (csr_zeros (0, 3)) true = Raise IndexError.
Proof.
  split; [simpl; lia|].
  apply (csr_shift_no_rows (csr_zeros (0, 3)) true). simpl. lia.
Defined.

(** ** Several shifts in a row *)

Lemma neighbour_beyond (earlier : bool) (n i d : nat) :
  i < n -> n <= d -> neighbour earlier n i d = None.
Proof.
  intros Hi Hd. unfold neighbour. destruct earlier.
  - destruct (Nat.leb_spec d i); [lia | reflexivity].
  - destruct (Nat.ltb_spec (i + d) n); [lia | reflexivity].
Qed.

(** X2. [k] calls of [csr_shift] in one direction on a well-formed matrix
    compose: the result is well-formed, of the same shape, and its row
    [i] is the row [k] places before (downwards) or after (upwards) of
    the original, or empty where there is no such row. *)
Theorem csr_shift_n_rows (m : csr_matrix) (down : bool) (k : nat) :
  well_formed m = true -> 1 <= nrows m ->
  exists y,
    csr_shift_n m down k = Ok y
    /\ shape y = shape m
    /\ well_formed y = true
    /\ forall i, i < nrows m ->
         getrow y i = match neighbour down (nrows m) i k with
                      | Some j => getrow m j
                      | None => []
                      end.
Proof.
  intros Hwf Hn. apply well_formed_WF in Hwf.
  exists (iter_shift m down k).
  split; [now apply csr_shift_n_eq|].
  pose proof (iter_shift_shape m down k) as [Hr Hc].
  split; [unfold shape; now rewrite Hr, Hc|].
  split; [apply well_formed_WF; now apply WF_iter_shift|].
  intros i Hi. now apply getrow_iter_shift.
Qed.

Lemma csr_shift_n_rows_witness :
  well_formed sample_onehot = true /\ 1 <= nrows sample_onehot
  /\ exists y,
       csr_shift_n sample_onehot true 2 = Ok y
       /\ shape y = shape sample_onehot
       /\ well_formed y = true
       /\ forall i, i < nrows sample_onehot ->
            getrow y i = match neighbour true (nrows sample_onehot) i 2 with
                         | Some j => getrow sample_onehot j
                         | None => []
                         end.
Proof.
  split; [reflexivity|]. split; [simpl; lia|].
  apply (csr_shift_n_rows sample_onehot true 2); [reflexivity | simpl; lia].
Defined.

Lemma indptr_row_lengths (m : csr_matrix) (k : nat) :
  WF m -> k <= nrows m ->
  nth k (indptr m) 0
  = list_sum (map (fun i => length (getrow m i)) (seq 0 k)).
Proof.
  intros H. induction k as [|k IH]; intros Hk.
  - apply (wf_zero H).
  - rewrite seq_S, map_app, list_sum_app, <- IH by lia.
    cbn [map list_sum Nat.add]. rewrite getrow_length by (auto; lia).
    assert (nth k (indptr m) 0 <= nth (S k) (indptr m) 0)
      by (apply (wf_mono H); lia).
    cbn [list_sum fold_right]. lia.
Qed.

Lemma nnz_empty_rows (m : csr_matrix) :
  WF m -> (forall i, i < nrows m -> getrow m i = []) -> nnz m = 0.
Proof.
  intros H Hrows. rewrite (nnz_nth m (wf_len H)).
  rewrite indptr_row_lengths by (auto; lia).
  induction (nrows m) as [|n IH]; [reflexivity|].
  rewrite seq_S, map_app, list_sum_app, IH by (intros; apply Hrows; lia).
  cbn [map list_sum Nat.add]. now rewrite Hrows by lia.
Qed.

(** X3. Shifting never adds an entry: each further [csr_shift] of a
    well-formed matrix leaves at most as many stored entries as before, and
    after as many shifts as the matrix has rows (or more) nothing is
    left. *)
Theorem csr_shift_n_nnz (m : csr_matrix) (down : bool) (k : nat) :
  well_formed m = true -> 1 <= nrows m ->
  exists y y',
    csr_shift_n m down k = Ok y
    /\ csr_shift_n m down (S k) = Ok y'
    /\ nnz y' <= nnz y
    /\ nnz y <= nnz m
    /\ (nrows m <= k ->
        nnz y = 0 /\ forall i, i < nrows m -> getrow y i = []).
Proof.
  intros Hwf Hn. apply well_formed_WF in Hwf.
  exists (iter_shift m down k), (iter_shift m down (S k)).
  split; [now apply csr_shift_n_eq|].
  split; [now apply csr_shift_n_eq|].
  assert (Hstep : forall j, nnz (iter_shift m down (S j))
                            <= nnz (iter_shift m down j)).
  { intros j. pose proof (iter_shift_shape m down j) as [Hr _].
    pose proof (nnz_shifted (iter_shift m down j) down
                  (WF_iter_shift m down j Hwf Hn) ltac:(lia)) as Hz.
    rewrite iter_shift_S. lia. }
  split; [apply Hstep|].
  split.
  - induction k as [|k IH]; [apply Nat.le_refl|].
    specialize (Hstep k). lia.
  - intros Hk.
    assert (Hrows : forall i, i < nrows m ->
                      getrow (iter_shift m down k) i = []).
    { intros i Hi. rewrite getrow_iter_shift by assumption.
      now rewrite neighbour_beyond by assumption. }
    split; [|exact Hrows].
    apply nnz_empty_rows; [now apply WF_iter_shift|].
    intros i Hi. apply Hrows.
    now rewrite (proj1 (iter_shift_shape m down k)) in Hi.
Qed.

Lemma csr_shift_n_nnz_witness :
  well_formed sample_onehot = true /\ 1 <= nrows sample_onehot
  /\ exists y y',
       csr_shift_n sample_onehot false 4 = Ok y
       /\ csr_shift_n sample_onehot false 5 = Ok y'
       /\ nnz y' <= nnz y
       /\ nnz y <= nnz sample_onehot
       /\ nnz y = 0.
Proof.
  split; [reflexivity|]. split; [simpl; lia|].
  destruct (csr_shift_n_nnz sample_onehot false 4)
    as [y [y' [H1 [H2 [H3 [H4 H5]]]]]]; [reflexivity | simpl; lia |].
  exists y, y'. repeat split; try assumption.
  apply H5. simpl. lia.
Defined.

(** ** Words outside the vocabulary *)

Lemma table_lookup_known (cats : list string) (s : nat) (w : string) :
  table_lookup cats s w = None <-> existsb (String.eqb w) cats = false.
Proof.
  revert s. induction cats as [|x t IH]; intros s; [split; reflexivity|].
  cbn [table_lookup existsb]. rewrite (String.eqb_sym w x).
  specialize (IH (S s)).
  destruct (table_lookup t (S s) w), (existsb (String.eqb w) t),
    (String.eqb x w); cbn [orb]; split; intros H;
    try reflexivity; try discriminate;
    try (destruct IH as [IH1 IH2]; (discriminate (IH1 eq_refl))
                                   || (discriminate (IH2 eq_refl))).
Qed.

Lemma encoded_nnz (cats words : list string) :
  length (indices (encoded cats words))
  = length (filter (fun w => existsb (String.eqb w) cats) words).
Proof.
  cbn [encoded indices]. induction words as [|w ws IH]; [reflexivity|].
  cbn [map flat_map filter]. rewrite length_app, IH.
  pose proof (table_lookup_known cats 0 w) as Hk.
  destruct (table_lookup cats 0 w), (existsb (String.eqb w) cats);
    try reflexivity.
  - destruct Hk as [_ Hk]. discriminate (Hk eq_refl).
  - destruct Hk as [Hk _]. discriminate (Hk eq_refl).
Qed.

(** Without any category the encoder has no first category to put in
    the place of the unknown words, which all words then are. *)
Lemma fit_transform_empty_vocabulary (words : list string) :
  0 < length words -> fit_transform [] words = Raise IndexError.
Proof.
  destruct words; [simpl; lia | reflexivity].
Qed.

(** X4. Given a vocabulary that is not empty, the encoder ignores
    unknown words: the row of a word that is no category is empty, the
    row of a category holds the single entry 1 in a column that bears
    the word, and the matrix stores as many entries as the stream has
    words of the vocabulary. *)
Theorem fit_transform_unknown_words (cats words : list string) :
  0 < length words -> 0 < length cats ->
  exists m,
    fit_transform cats words = Ok m
    /\ (forall i, i < length words ->
          if existsb (String.eqb (nth i words EmptyString)) cats
          then exists c, getrow m i = [(c, 1%Z)]
                         /\ c < length cats
                         /\ nth c cats EmptyString = nth i words EmptyString
          else getrow m i = [])
    /\ nnz m
       = length (filter (fun w => existsb (String.eqb w) cats) words).
Proof.
  intros Hn Hcats. exists (encoded cats words).
  split; [now apply fit_transform_encoded|]. split.
  - intros i Hi. rewrite getrow_encoded by exact Hi. unfold encoded_row.
    pose proof (table_lookup_known cats 0 (nth i words EmptyString)) as Hk.
    destruct (table_lookup cats 0 (nth i words EmptyString)) as [c|] eqn:Ec.
    + destruct (existsb _ cats).
      * exists c. apply table_lookup_Some in Ec.
        rewrite Nat.sub_0_r in Ec. split; [reflexivity|].
        split; [lia | apply Ec].
      * destruct Hk as [_ Hk]. discriminate (Hk eq_refl).
    + destruct Hk as [Hk _]. now rewrite (Hk eq_refl).
  - pose proof (WF_encoded cats words) as H.
    rewrite (nnz_nth _ (wf_len H)), (wf_nnz H). apply encoded_nnz.
Qed.

Lemma fit_transform_unknown_words_witness :
  0 < length unknown_words /\ 0 < length sample_cats
  /\ exists m,
       fit_transform sample_cats unknown_words = Ok m
       /\ getrow m 1 = []
       /\ nnz m = 2.
Proof.
  split; [simpl; lia|]. split; [simpl; lia|].
  destruct (fit_transform_unknown_words sample_cats unknown_words)
    as [m [Hm [Hrows Hz]]]; [simpl; lia | simpl; lia|].
  exists m. split; [exact Hm|]. split; [|exact Hz].
  apply (Hrows 1). simpl. lia.
Defined.

(** ** The totals of the one-hot columns *)

Lemma wrap64_add_r (a b : Z) : wrap64 (a + wrap64 b) = wrap64 (a + b).
Proof.
  unfold wrap64. f_equal.
  replace (a + ((b + 2 ^ 63) mod 2 ^ 64 - 2 ^ 63) + 2 ^ 63)%Z
    with (a + (b + 2 ^ 63) mod 2 ^ 64)%Z by lia.
  rewrite Zplus_mod_idemp_r. f_equal. lia.
Qed.

Lemma wrap64_range (z : Z) : (- 2 ^ 63 <= wrap64 z < 2 ^ 63)%Z.
Proof.
  unfold wrap64.
  pose proof (Z.mod_pos_bound (z + 2 ^ 63) (2 ^ 64) ltac:(lia)). lia.
Qed.

Lemma sum64_range (l : list Z) : (- 2 ^ 63 <= sum64 l < 2 ^ 63)%Z.
Proof.
  destruct l as [|x t]; [cbn; lia|]. apply wrap64_range.
Qed.

Lemma sum64_app (a b : list Z) :
  sum64 (a ++ b) = add64 (sum64 a) (sum64 b).
Proof.
  induction a as [|x a IH].
  - cbn [app]. unfold add64. change (sum64 []) with 0%Z.
    rewrite Z.add_0_l. symmetry. apply wrap64_small, sum64_range.
  - change (sum64 ((x :: a) ++ b)) with (add64 x (sum64 (a ++ b))).
    change (sum64 (x :: a)) with (add64 x (sum64 a)).
    rewrite IH. unfold add64. rewrite wrap64_add_r.
    rewrite (Z.add_comm (wrap64 _)), wrap64_add_r. f_equal. lia.
Qed.

Lemma sum64_indicator {A : Type} (p : A -> bool) (l : list A) :
  (Z.of_nat (length l) < 2 ^ 63)%Z ->
  sum64 (map (fun x => if p x then 1%Z else 0%Z) l)
  = Z.of_nat (length (filter p l)).
Proof.
  unfold sum64. induction l as [|x t IH]; intros Hl; [reflexivity|].
  cbn [map fold_right filter]. rewrite IH by (simpl in Hl; lia).
  pose proof (filter_length_le p t) as Hle.
  unfold add64. rewrite wrap64_small.
  - destruct (p x); cbn [length]; lia.
  - change (2 ^ 63)%Z with 9223372036854775808%Z in *.
    cbn [length] in Hl. destruct (p x); lia.
Qed.

Lemma map_nth_seq {A B : Type} (f : A -> B) (l : list A) (d : A) :
  map (fun i => f (nth i l d)) (seq 0 (length l)) = map f l.
Proof.
  induction l as [|x t IH]; [reflexivity|].
  cbn [length seq map nth]. f_equal.
  rewrite <- seq_shift, map_map. exact IH.
Qed.

Lemma column_encoded (cats words : list string) (c : nat) :
  NoDup cats -> c < length cats ->
  column (encoded cats words) c
  = map (fun w => if String.eqb w (nth c cats EmptyString)
                  then 1%Z else 0%Z) words.
Proof.
  intros Hnd Hc. unfold column.
  change (nrows (encoded cats words)) with (length words).
  rewrite <- (map_nth_seq
                (fun w => if String.eqb w (nth c cats EmptyString)
                          then 1%Z else 0%Z) words EmptyString).
  apply map_ext_in. intros i Hi. apply in_seq in Hi.
  apply csr_get_encoded; auto; lia.
Qed.

(** X5. For a duplicate-free vocabulary [spot_check_onehot] passes at
    every index of the vocabulary: the total of the one-hot column is
    the number of occurrences of its word in the stream. *)
Theorem spot_check_onehot_passes (cats words : list string) (index : nat) :
  NoDup cats -> index < length cats -> 0 < length words ->
  (Z.of_nat (length words) < 2 ^ 63)%Z ->
  exists m,
    fit_transform cats words = Ok m
    /\ spot_check_onehot cats words m index
       = Ok (nth index cats EmptyString,
             Z.of_nat (length (filter
                         (fun w => String.eqb w (nth index cats EmptyString))
                         words)),
             Z.of_nat (length (filter
                         (fun w => String.eqb w (nth index cats EmptyString))
                         words)),
             true).
Proof.
  intros Hnd Hi Hn Hsmall. exists (encoded cats words).
  split; [apply fit_transform_encoded; lia|].
  unfold spot_check_onehot.
  change (ncols (encoded cats words)) with (length cats).
  destruct (Nat.ltb_spec index (length cats)); [|lia]. cbn [andb].
  unfold column_sum. rewrite column_encoded by assumption.
  rewrite !sum64_indicator by assumption.
  now rewrite Z.eqb_refl.
Qed.

Lemma spot_check_onehot_passes_witness :
  NoDup sample_cats /\ 0 < length sample_cats /\ 0 < length sample_words
  /\ (Z.of_nat (length sample_words) < 2 ^ 63)%Z
  /\ exists m,
       fit_transform sample_cats sample_words = Ok m
       /\ spot_check_onehot sample_cats sample_words m 0
          = Ok (nth 0 sample_cats EmptyString, 2%Z, 2%Z, true).
Proof.
  assert (Hd : NoDup sample_cats)
    by (repeat constructor; simpl; intuition discriminate).
  split; [exact Hd|]. split; [simpl; lia|]. split; [simpl; lia|].
  split; [reflexivity|].
  apply (spot_check_onehot_passes sample_cats sample_words 0);
    [exact Hd | simpl; lia | simpl; lia | reflexivity].
Defined.

(** ** The two halves of the output *)

Lemma csr_add_shape (a b r : csr_matrix) :
  csr_add a b = Ok r -> nrows r = nrows a /\ ncols r = ncols a.
Proof.
  unfold csr_add.
  destruct ((nrows a =? nrows b) && (ncols a =? ncols b)); [|discriminate].
  intros [= <-]. split; reflexivity.
Qed.

Lemma cum_sum_loop_shape (company : list string) (above : bool) (steps : nat) :
  forall i shifted cumsum r,
    cum_sum_loop company above steps i shifted cumsum = Ok r ->
    nrows r = nrows cumsum /\ ncols r = ncols cumsum.
Proof.
  induction steps as [|steps IH]; intros i shifted cumsum r.
  - cbn [cum_sum_loop]. intros [= <-]. split; reflexivity.
  - cbn [cum_sum_loop].
    destruct (csr_shift shifted above) as [y|e]; [|discriminate].
    cbn [bind].
    destruct (col_multiply _ y) as [masked|e]; [|discriminate].
    cbn [bind].
    destruct (csr_add cumsum masked) as [c'|e] eqn:Ea; [|discriminate].
    cbn [bind]. intros Hr. apply IH in Hr. apply csr_add_shape in Ea.
    destruct Hr, Ea. split; congruence.
Qed.

Lemma csr_cum_sum_shape (m : csr_matrix) (company : list string)
      (window_size : Z) (above : bool) (r : csr_matrix) :
  csr_cum_sum m company window_size above = Ok r ->
  nrows r = nrows m /\ ncols r = ncols m.
Proof.
  unfold csr_cum_sum. intros H. apply cum_sum_loop_shape in H. exact H.
Qed.

(** X6. [extract_features] keeps the rows aligned: whenever the two runs
    of [csr_cum_sum] return, for any matrix and company vector, the
    stacking cannot fail, the output has the shape (N, 2K), its first [K]
    columns are the counts of earlier positions and its last [K] columns
    the counts of later positions, row by row. *)
Theorem extract_features_halves (m : csr_matrix) (company : list string)
        (window_size : Z) (A B : csr_matrix) :
  csr_cum_sum m company window_size true = Ok A ->
  csr_cum_sum m company window_size false = Ok B ->
  exists X,
    extract_features m company window_size = Ok X
    /\ shape X = (nrows m, ncols m + ncols m)
    /\ forall i c, i < nrows m -> c < ncols m ->
         csr_get X i c = csr_get A i c
         /\ csr_get X i (ncols m + c) = csr_get B i c.
Proof.
  intros HA HB. unfold extract_features. rewrite HA, HB. cbn [bind].
  apply csr_cum_sum_shape in HA. apply csr_cum_sum_shape in HB.
  destruct HA as [HA1 HA2], HB as [HB1 HB2].
  unfold hstack. rewrite HA1, HB1, Nat.eqb_refl, HA2, HB2.
  eexists. split; [reflexivity|]. split; [reflexivity|].
  intros i c Hi Hc. rewrite !csr_get_of_dense by exact Hi.
  destruct (Nat.ltb_spec c (ncols m + ncols m)); [|lia].
  destruct (Nat.ltb_spec (ncols m + c) (ncols m + ncols m)); [|lia].
  destruct (Nat.ltb_spec c (ncols m)); [|lia].
  destruct (Nat.ltb_spec (ncols m + c) (ncols m)); [lia|].
  split; [reflexivity|]. f_equal. lia.
Qed.

Lemma extract_features_halves_witness :
  csr_cum_sum sample_onehot sample_company 1 true
  = Ok (mk_csr 4 3 [0; 0; 1; 2; 3] [0; 1; 2] [1; 1; 1]%Z)
  /\ csr_cum_sum sample_onehot sample_company 1 false
     = Ok (mk_csr 4 3 [0; 1; 2; 3; 3] [1; 2; 0] [1; 1; 1]%Z)
  /\ exists X,
       extract_features sample_onehot sample_company 1 = Ok X
       /\ shape X = (nrows sample_onehot,
                     ncols sample_onehot + ncols sample_onehot)
       /\ forall i c, i < nrows sample_onehot -> c < ncols sample_onehot ->
            csr_get X i c
            = csr_get (mk_csr 4 3 [0; 0; 1; 2; 3] [0; 1; 2] [1; 1; 1]%Z) i c
            /\ csr_get X i (ncols sample_onehot + c)
               = csr_get (mk_csr 4 3 [0; 1; 2; 3; 3] [1; 2; 0] [1; 1; 1]%Z)
                         i c.
Proof.
  split; [reflexivity|]. split; [reflexivity|].
  apply (extract_features_halves sample_onehot sample_company 1);
    reflexivity.
Defined.

(** ** The range of the counts *)

(** X7. Every accumulated count lies between 0 and the window size, and
    is at most the number of positions the stream has on that side of
    the token: [i] for the counts of earlier positions, [N - 1 - i] for
    the counts of later ones. *)
Theorem extract_features_bounds (m : csr_matrix) (company : list string)
        (W i col : nat) :
  one_hot m = true ->
  length company = nrows m ->
  (Z.of_nat (nrows m) < 2 ^ 63)%Z ->
  i < nrows m ->
  col < ncols m + ncols m ->
  exists X,
    extract_features m company (Z.of_nat W) = Ok X
    /\ (0 <= csr_get X i col <= Z.of_nat W)%Z
    /\ (csr_get X i col
        <= Z.of_nat (if (col <? ncols m)%nat then i
                     else (nrows m - 1 - i)%nat))%Z.
Proof.
  intros Hoh Hlen Hsmall Hi Hcol.
  pose proof (one_hot_WF m Hoh) as Hwf.
  pose proof (one_hot_indicator m Hoh) as Hind.
  eexists. split; [apply extract_features_spec; assumption || lia|].
  rewrite Nat2Z.id, extract_features_entry by assumption.
  unfold count_entry. destruct (col <? ncols m).
  - pose proof (window_sum_bounds m company true W i col Hind Hi) as Hb.
    unfold reach in Hb. lia.
  - pose proof (window_sum_bounds m company false W i (col - ncols m)
                  Hind Hi) as Hb.
    unfold reach in Hb. lia.
Qed.

Lemma extract_features_bounds_witness :
  one_hot two_onehot = true
  /\ length two_company = nrows two_onehot
  /\ (Z.of_nat (nrows two_onehot) < 2 ^ 63)%Z
  /\ 4 < nrows two_onehot
  /\ 3 < ncols two_onehot + ncols two_onehot
  /\ exists X,
       extract_features two_onehot two_company (Z.of_nat 5) = Ok X
       /\ (0 <= csr_get X 4 3 <= Z.of_nat 5)%Z
       /\ (csr_get X 4 3
           <= Z.of_nat (if (3 <? ncols two_onehot)%nat then 4%nat
                        else (nrows two_onehot - 1 - 4)%nat))%Z.
Proof.
  split; [reflexivity|]. split; [reflexivity|]. split; [reflexivity|].
  split; [simpl; lia|]. split; [simpl; lia|].
  apply (extract_features_bounds two_onehot two_company 5 4 3);
    [reflexivity | reflexivity | reflexivity | simpl; lia | simpl; lia].
Defined.

(** ** A company vector of another length *)

(** X8. [csr_cum_sum] checks the length of the company vector only by
    multiplying: for a well-formed matrix with more than one row, a
    company vector of another length (and not of length 1) makes the
    first step raise [ValueError]; with a window size [<= 0] no step runs
    and the all-zero matrix returns, whatever the company vector. *)
Theorem csr_cum_sum_length_mismatch (m : csr_matrix) (company : list string)
        (window_size : Z) (above : bool) :
  well_formed m = true ->
  1 < nrows m ->
  length company <> nrows m ->
  length company <> 1 ->
  ((1 <= window_size)%Z ->
   csr_cum_sum m company window_size above = Raise ValueError)
  /\ ((window_size <= 0)%Z ->
      csr_cum_sum m company window_size above = Ok (csr_zeros (shape m))).
Proof.
  intros Hwf Hn Hlen H1. apply well_formed_WF in Hwf. split; intros HW.
  - unfold csr_cum_sum.
    destruct (Z.to_nat window_size) as [|k] eqn:Ek; [lia|].
    cbn [cum_sum_loop]. rewrite csr_shift_eq by (auto; lia). cbn [bind].
    unfold col_multiply. rewrite is_same_after_shift_length.
    replace (nrows (if above then shifted_down m else shifted_up m))
      with (nrows m) by (destruct above; reflexivity).
    destruct (Nat.eqb_spec (length company) (nrows m)); [contradiction|].
    destruct (Nat.eqb_spec (length company) 1); [contradiction|].
    destruct (Nat.eqb_spec (nrows m) 1); [lia|]. reflexivity.
  - unfold csr_cum_sum. replace (Z.to_nat window_size) with 0 by lia.
    reflexivity.
Qed.

Lemma csr_cum_sum_length_mismatch_witness :
  well_formed sample_onehot = true
  /\ 1 < nrows sample_onehot
  /\ length two_company <> nrows sample_onehot
  /\ length two_company <> 1
  /\ csr_cum_sum sample_onehot two_company 2 true = Raise ValueError
  /\ csr_cum_sum sample_onehot two_company 0 true
     = Ok (csr_zeros (shape sample_onehot)).
Proof.
  split; [reflexivity|]. split; [simpl; lia|].
  split; [simpl; lia|]. split; [simpl; lia|].
  destruct (csr_cum_sum_length_mismatch sample_onehot two_company 2 true)
    as [H2 _]; [reflexivity | simpl; lia | simpl; lia | simpl; lia |].
  destruct (csr_cum_sum_length_mismatch sample_onehot two_company 0 true)
    as [_ H0]; [reflexivity | simpl; lia | simpl; lia | simpl; lia |].
  split; [apply H2; lia | apply H0; lia].
Defined.

(** ** Reading the stream backwards *)

Lemma csr_get_encoded_rev (cats words : list string) (j c : nat) :
  j < length words ->
  csr_get (encoded cats (rev words)) j c
  = csr_get (encoded cats words) (length words - 1 - j) c.
Proof.
  intros Hj. unfold csr_get.
  rewrite !getrow_encoded by (try rewrite length_rev; lia).
  rewrite rev_nth by exact Hj. do 3 f_equal. lia.
Qed.

Lemma step_term_mirror (cats words company : list string) (earlier : bool)
      (d i c : nat) :
  length company = length words -> i < length words ->
  step_term (encoded cats (rev words)) (rev company) (negb earlier) d
            (length words - 1 - i) c
  = step_term (encoded cats words) company earlier d i c.
Proof.
  intros Hlen Hi. unfold step_term.
  change (nrows (encoded cats (rev words))) with (length (rev words)).
  change (nrows (encoded cats words)) with (length words).
  rewrite length_rev.
  assert (Hnb : neighbour (negb earlier) (length words)
                          (length words - 1 - i) d
                = match neighbour earlier (length words) i d with
                  | Some j => Some (length words - 1 - j)
                  | None => None
                  end).
  { unfold neighbour. destruct earlier; cbn [negb].
    - destruct (Nat.ltb_spec (length words - 1 - i + d) (length words)),
        (Nat.leb_spec d i); try lia; [f_equal; lia | reflexivity].
    - destruct (Nat.leb_spec d (length words - 1 - i)),
        (Nat.ltb_spec (i + d) (length words)); try lia;
        [f_equal; lia | reflexivity]. }
  rewrite Hnb.
  destruct (neighbour earlier (length words) i d) as [j|] eqn:Ej;
    [|reflexivity].
  pose proof (neighbour_lt earlier (length words) i d j Hi Ej) as Hj.
  rewrite !rev_nth by (rewrite Hlen; lia). rewrite Hlen.
  replace (length words - S (length words - 1 - i)) with i by lia.
  replace (length words - S (length words - 1 - j)) with j by lia.
  rewrite csr_get_encoded_rev by lia.
  replace (length words - 1 - (length words - 1 - j)) with j by lia.
  reflexivity.
Qed.

Lemma window_sum_mirror (cats words company : list string) (earlier : bool)
      (w i c : nat) :
  length company = length words -> i < length words ->
  window_sum (encoded cats (rev words)) (rev company) (negb earlier) w
             (length words - 1 - i) c
  = window_sum (encoded cats words) company earlier w i c.
Proof.
  intros Hlen Hi. induction w as [|w IH]; [reflexivity|].
  cbn [window_sum]. now rewrite IH, step_term_mirror.
Qed.

(** X9. The two directions mirror each other: the counts of later
    positions of a stream are the counts of earlier positions of the
    stream read backwards (words and companies reversed), taken at the
    mirrored row, and the other way round. *)
Theorem features_mirror (cats words company : list string) (W : Z)
        (i c : nat) :
  length company = length words ->
  (Z.of_nat (length words) < 2 ^ 63)%Z ->
  i < length words ->
  c < length cats ->
  exists X X',
    features cats words company W = Ok X
    /\ features cats (rev words) (rev company) W = Ok X'
    /\ csr_get X i (feature_column (length cats) false c)
       = csr_get X' (length words - 1 - i)
                 (feature_column (length cats) true c)
    /\ csr_get X i (feature_column (length cats) true c)
       = csr_get X' (length words - 1 - i)
                 (feature_column (length cats) false c).
Proof.
  intros Hlen Hsmall Hi Hc.
  do 2 eexists.
  split; [apply features_spec; assumption || lia|].
  split; [apply features_spec; rewrite ?length_rev; assumption || lia|].
  rewrite !(features_entry cats words company)
    by (unfold feature_column; lia).
  rewrite !(features_entry cats (rev words) (rev company))
    by (rewrite ?length_rev; unfold feature_column; lia).
  rewrite !feature_entry_column by exact Hc.
  split; symmetry.
  - apply (window_sum_mirror cats words company false); assumption.
  - apply (window_sum_mirror cats words company true); assumption.
Qed.

Lemma features_mirror_witness :
  length two_company = length two_words
  /\ (Z.of_nat (length two_words) < 2 ^ 63)%Z
  /\ 1 < length two_words
  /\ 0 < length sample_cats
  /\ exists X X',
       features sample_cats two_words two_company 5 = Ok X
       /\ features sample_cats (rev two_words) (rev two_company) 5 = Ok X'
       /\ csr_get X 1 (feature_column (length sample_cats) false 0)
          = csr_get X' (length two_words - 1 - 1)
                    (feature_column (length sample_cats) true 0)
       /\ csr_get X 1 (feature_column (length sample_cats) true 0)
          = csr_get X' (length two_words - 1 - 1)
                    (feature_column (length sample_cats) false 0).
Proof.
  split; [reflexivity|]. split; [reflexivity|]. split; [simpl; lia|].
  split; [simpl; lia|].
  apply (features_mirror sample_cats two_words two_company 5 1 0);
    [reflexivity | reflexivity | simpl; lia | simpl; lia].
Defined.

(** ** The totals [spot_check_shift] prints *)

Lemma flat_map_seq_S {A : Type} (f : nat -> list A) (n : nat) :
  flat_map f (seq 0 (S n)) = f 0 ++ flat_map (fun i => f (S i)) (seq 0 n).
Proof.
  cbn [seq flat_map]. f_equal. rewrite <- seq_shift.
  rewrite !flat_map_concat_map, map_map. reflexivity.
Qed.

Lemma flat_map_ext_in {A B : Type} (f g : A -> list B) (l : list A) :
  (forall x, In x l -> f x = g x) -> flat_map f l = flat_map g l.
Proof.
  intros H. rewrite !flat_map_concat_map. f_equal. now apply map_ext_in.
Qed.

Lemma add64_comm (a b : Z) : add64 a b = add64 b a.
Proof. unfold add64. now rewrite Z.add_comm. Qed.

(** X10. The two totals [spot_check_shift] prints for a well-formed
    matrix and its shift differ by the values of the boundary row that
    fell off: the total of the original is the total of the shifted
    matrix plus the sum of that row. *)
Theorem spot_check_shift_totals (m : csr_matrix) (down : bool) :
  well_formed m = true -> 1 <= nrows m ->
  exists y,
    csr_shift m down = Ok y
    /\ fst (spot_check_shift m y)
       = add64 (snd (spot_check_shift m y))
               (sum64 (map snd (getrow m (boundary_row m down)))).
Proof.
  intros Hwf Hn. apply well_formed_WF in Hwf.
  exists (if down then shifted_down m else shifted_up m).
  split; [now apply csr_shift_eq|].
  unfold spot_check_shift, csr_sum. cbn [fst snd].
  replace (nrows (if down then shifted_down m else shifted_up m))
    with (nrows m) by (destruct down; reflexivity).
  rewrite (flat_map_ext_in
             (fun i => map snd
                         (getrow (if down then shifted_down m
                                  else shifted_up m) i))
             (fun i => map snd (shifted_row m down i)))
    by (intros i Hi; apply in_seq in Hi; rewrite getrow_shifted;
        auto; lia).
  destruct (nrows m) as [|n] eqn:En; [lia|].
  unfold boundary_row, shifted_row. rewrite En. destruct down.
  - rewrite Nat.sub_succ, Nat.sub_0_r.
    rewrite (flat_map_seq_S (fun i => map snd match i with
                                              | 0 => []
                                              | S j => getrow m j
                                              end)).
    cbn [map app]. rewrite seq_S, flat_map_app, sum64_app.
    cbn [flat_map Nat.add]. now rewrite app_nil_r.
  - rewrite (flat_map_seq_S (fun i => map snd (getrow m i))).
    rewrite sum64_app, add64_comm. f_equal. f_equal.
    rewrite seq_S, flat_map_app. cbn [flat_map Nat.add].
    destruct (Nat.ltb_spec (S n) (S n)); [lia|]. cbn [map].
    rewrite !app_nil_r. apply flat_map_ext_in.
    intros i Hi. apply in_seq in Hi.
    destruct (Nat.ltb_spec (S i) (S n)); [reflexivity | lia].
Qed.

Lemma spot_check_shift_totals_witness :
  well_formed sample_onehot = true /\ 1 <= nrows sample_onehot
  /\ exists y,
       csr_shift sample_onehot true = Ok y
       /\ fst (spot_check_shift sample_onehot y)
          = add64 (snd (spot_check_shift sample_onehot y))
                  (sum64 (map snd (getrow sample_onehot
                                     (boundary_row sample_onehot true)))).
Proof.
  split; [reflexivity|]. split; [simpl; lia|].
  apply (spot_check_shift_totals sample_onehot true);
    [reflexivity | simpl; lia].
Defined.

(** ** The direct calculation of [spot_check] *)

Lemma direct_counts_eq (is_target_feature : list bool) (window_size : Z)
      (above : bool) :
  direct_counts is_target_feature window_size above
  = (r <- rolled_sums (stride above is_target_feature) window_size ;;
     set_rolled_over above (stride above r)).
Proof.
  unfold direct_counts, rolled_sums.
  destruct (np_put_zeros _ _); reflexivity.
Qed.

Lemma prefix_count_cons (x : bool) (t : list bool) (k : nat) :
  prefix_count (x :: t) (S k) = (if x then 1 else 0) + prefix_count t k.
Proof.
  unfold prefix_count.
  assert (Ht : length (filter (fun j => nth j (x :: t) false) (seq 1 k))
               = length (filter (fun j => nth j t false) (seq 0 k))).
  { rewrite <- seq_shift, filter_map_swap, length_map. reflexivity. }
  cbn [seq filter]. change (nth 0 (x :: t) false) with x.
  destruct x; cbn [length]; rewrite Ht; reflexivity.
Qed.

Lemma prefix_count_le (xs : list bool) (k : nat) : prefix_count xs k <= k.
Proof.
  unfold prefix_count.
  pose proof (filter_length_le (fun j => nth j xs false) (seq 0 k)) as H.
  now rewrite length_seq in H.
Qed.

Lemma prefix_count_monotone (xs : list bool) (a b : nat) :
  a <= b -> prefix_count xs a <= prefix_count xs b.
Proof.
  intros H. unfold prefix_count.
  replace b with (a + (b - a)) by lia.
  rewrite seq_app, filter_app, length_app. lia.
Qed.

Lemma cumsum64_length (acc : Z) (l : list Z) :
  length (cumsum64 acc l) = length l.
Proof.
  revert acc. induction l as [|x t IH]; intros acc; [reflexivity|].
  cbn [cumsum64 length]. now rewrite IH.
Qed.

Lemma cumsum64_nth (xs : list bool) (a i : nat) :
  (Z.of_nat (a + length xs) < 2 ^ 63)%Z -> i < length xs ->
  nth i (cumsum64 (Z.of_nat a)
                  (map (fun b : bool => if b then 1%Z else 0%Z) xs)) 0%Z
  = Z.of_nat (a + prefix_count xs (S i)).
Proof.
  revert a i. induction xs as [|x t IH]; intros a i Hs Hi;
    [simpl in Hi; lia|].
  cbn [map cumsum64 length] in *.
  assert (Ha : add64 (Z.of_nat a) (if x then 1 else 0)
               = Z.of_nat (a + (if x then 1 else 0))).
  { unfold add64. rewrite wrap64_small.
    - destruct x; lia.
    - change (2 ^ 63)%Z with 9223372036854775808%Z in *. destruct x; lia. }
  rewrite Ha. destruct i as [|j]; cbn [nth].
  - rewrite prefix_count_cons. unfold prefix_count. cbn. lia.
  - rewrite IH by (destruct x; lia). rewrite prefix_count_cons. f_equal. lia.
Qed.

Lemma np_put_zeros_nth (l r : list Z) (k i : nat) :
  np_put_zeros l k = Ok r ->
  length r = length l
  /\ nth i r 0%Z = if i <? k then 0%Z else nth i l 0%Z.
Proof.
  unfold np_put_zeros. destruct (Nat.leb_spec k (length l)); [|discriminate].
  intros [= <-]. split.
  - rewrite length_app, repeat_length, length_skipn. lia.
  - destruct (Nat.ltb_spec i k).
    + rewrite app_nth1 by (now rewrite repeat_length). apply nth_repeat.
    + rewrite app_nth2 by (rewrite repeat_length; lia).
      rewrite repeat_length, nth_skipn. f_equal. lia.
Qed.

Lemma window_count_prefix (xs : list bool) (n w i : nat) :
  i <= n ->
  window_count true n w i (fun j => nth j xs false)
  = prefix_count xs i - prefix_count xs (i - w).
Proof.
  intros Hi. unfold window_count, prefix_count.
  rewrite (seq_three (i - w) (i - (i - w)) n) by lia.
  rewrite !filter_app, !length_app.
  rewrite (count_none _ (seq 0 (i - w))),
    (count_none _ (seq (i - w + (i - (i - w))) _)).
  - assert (Hsplit :
              length (filter (fun j => nth j xs false) (seq 0 i))
              = length (filter (fun j => nth j xs false) (seq 0 (i - w)))
                + length (filter (fun j => nth j xs false)
                                 (seq (i - w) (i - (i - w))))).
    { transitivity (length (filter (fun j => nth j xs false)
                                   (seq 0 ((i - w) + (i - (i - w))))));
        [do 3 f_equal; lia|].
      rewrite seq_app, filter_app, length_app. reflexivity. }
    rewrite Hsplit.
    rewrite (count_ext _ (fun j => nth j xs false) (seq (i - w) _)); [lia|].
    intros j Hj. apply in_seq in Hj. unfold in_window.
    destruct (Nat.ltb_spec j i), (Nat.leb_spec (i - j) w); try lia.
    reflexivity.
  - intros j Hj. apply in_seq in Hj. unfold in_window.
    destruct (Nat.ltb_spec j i); [lia | reflexivity].
  - intros j Hj. apply in_seq in Hj. unfold in_window.
    destruct (Nat.ltb_spec j i), (Nat.leb_spec (i - j) w); try lia;
      reflexivity.
Qed.

Lemma rolled_sums_spec (xs : list bool) (w : nat) :
  1 <= length xs -> w <= length xs ->
  (Z.of_nat (length xs) < 2 ^ 63)%Z ->
  exists r,
    rolled_sums xs (Z.of_nat w) = Ok r
    /\ length r = length xs
    /\ forall i, 1 <= i -> i < length xs ->
         nth i r 0%Z
         = Z.of_nat (window_count true (length xs) w i
                                  (fun j => nth j xs false)).
Proof.
  intros Hn Hw Hs. unfold rolled_sums. rewrite Nat2Z.id.
  set (cumsum := cumsum64 0 (map (fun b : bool => if b then 1%Z else 0%Z) xs)).
  assert (Hcl : length cumsum = length xs)
    by (unfold cumsum; now rewrite cumsum64_length, length_map).
  assert (Hcn : forall i, i < length xs ->
                  nth i cumsum 0%Z = Z.of_nat (prefix_count xs (S i))).
  { intros i Hi. unfold cumsum.
    exact (cumsum64_nth xs 0 i Hs Hi). }
  destruct (np_put_zeros (np_roll cumsum (Z.of_nat w)) w) as [tail|e] eqn:Et.
  2:{ unfold np_put_zeros in Et. rewrite np_roll_length, Hcl in Et.
      destruct (Nat.leb_spec w (length xs)); [discriminate | lia]. }
  cbn [bind]. eexists. split; [reflexivity|].
  assert (Htl : length tail = length xs).
  { destruct (np_put_zeros_nth _ _ _ 0 Et) as [Hl _].
    now rewrite Hl, np_roll_length. }
  set (rolling := map (fun p => sub64 (fst p) (snd p)) (combine cumsum tail)).
  assert (Hrl : length rolling = length xs).
  { unfold rolling. rewrite length_map, length_combine. lia. }
  assert (Hrn : forall i, i < length xs ->
                  nth i rolling 0%Z
                  = Z.of_nat (prefix_count xs (S i)
                              - prefix_count xs (S i - w))).
  { intros i Hi. unfold rolling.
    change 0%Z with ((fun p : Z * Z => sub64 (fst p) (snd p)) (0%Z, 0%Z)) at 1.
    rewrite map_nth, combine_nth by lia. cbn [fst snd].
    rewrite Hcn by exact Hi.
    destruct (np_put_zeros_nth _ _ _ i Et) as [_ Hti]. rewrite Hti.
    pose proof (prefix_count_monotone xs (S i - w) (S i) ltac:(lia)) as Hm.
    pose proof (prefix_count_le xs (S i)) as Hle.
    unfold sub64. destruct (Nat.ltb_spec i w).
    - replace (S i - w) with 0 by lia.
      change (prefix_count xs 0) with 0.
      rewrite wrap64_small;
        change (2 ^ 63)%Z with 9223372036854775808%Z in *; lia.
    - rewrite np_roll_nth by lia. rewrite Hcl.
      rewrite Z.mod_small by lia.
      replace (Z.to_nat (Z.of_nat i - Z.of_nat w)) with (i - w) by lia.
      rewrite Hcn by lia. replace (S (i - w)) with (S i - w) by lia.
      rewrite wrap64_small;
        change (2 ^ 63)%Z with 9223372036854775808%Z in *; lia. }
  split; [now rewrite np_roll_length|].
  intros i Hi1 Hi. rewrite np_roll_nth by lia. rewrite Hrl.
  rewrite Z.mod_small by lia.
  replace (Z.to_nat (Z.of_nat i - 1)) with (i - 1) by lia.
  rewrite Hrn by lia. replace (S (i - 1)) with i by lia.
  now rewrite window_count_prefix by lia.
Qed.

Lemma rev_seq (n : nat) :
  rev (seq 0 n) = map (fun j => n - 1 - j) (seq 0 n).
Proof.
  induction n as [|n IH]; [reflexivity|].
  rewrite seq_S at 1. rewrite rev_app_distr. cbn [rev app Nat.add].
  cbn [seq map]. f_equal; [lia|].
  rewrite IH, <- seq_shift, map_map. apply map_ext. intros j. lia.
Qed.

Lemma count_mirror (f : nat -> bool) (n : nat) :
  length (filter f (seq 0 n))
  = length (filter (fun j => f (n - 1 - j)) (seq 0 n)).
Proof.
  rewrite <- (length_rev (filter f (seq 0 n))), <- filter_rev, rev_seq.
  now rewrite filter_map_swap, length_map.
Qed.

Lemma window_count_mirror (n w i : nat) (q : nat -> bool) :
  i < n ->
  window_count true n w (n - 1 - i) (fun j => q (n - 1 - j))
  = window_count false n w i q.
Proof.
  intros Hi. unfold window_count.
  rewrite (count_mirror (fun j => in_window false w i j && q j)).
  apply count_ext. intros j Hj. apply in_seq in Hj. f_equal.
  unfold in_window.
  destruct (Nat.ltb_spec j (n - 1 - i)), (Nat.ltb_spec i (n - 1 - j)),
    (Nat.leb_spec (n - 1 - i - j) w), (Nat.leb_spec (n - 1 - j - i) w);
    lia || reflexivity.
Qed.

Lemma nth_removelast_any {A : Type} (l : list A) (i : nat) (d : A) :
  S i < length l -> nth i (removelast l) d = nth i l d.
Proof.
  intros H. rewrite removelast_firstn_len, nth_firstn.
  destruct (Nat.ltb_spec i (pred (length l))); [reflexivity | lia].
Qed.

Lemma window_count_at_0 (n w : nat) (q : nat -> bool) :
  window_count true n w 0 q = 0.
Proof.
  apply count_none. intros j _. reflexivity.
Qed.

Lemma direct_counts_nth (bs : list bool) (w : nat) (above : bool) :
  1 <= length bs -> w <= length bs ->
  (Z.of_nat (length bs) < 2 ^ 63)%Z ->
  exists a,
    direct_counts bs (Z.of_nat w) above = Ok a
    /\ length a = length bs
    /\ forall i, i < length bs ->
         nth i a 0%Z
         = Z.of_nat (window_count above (length bs) w i
                                  (fun j => nth j bs false)).
Proof.
  intros Hn Hw Hs. rewrite direct_counts_eq.
  assert (Hsl : length (stride above bs) = length bs)
    by (destruct above; [reflexivity | apply length_rev]).
  destruct (rolled_sums_spec (stride above bs) w) as [r [Hr [Hrl Hrn]]];
    try (rewrite Hsl; assumption).
  rewrite Hr. cbn [bind]. rewrite Hsl in *.
  destruct above; cbn [stride] in *.
  - destruct r as [|r0 rt]; [simpl in Hrl; lia|]. cbn [set_rolled_over tl].
    eexists. split; [reflexivity|]. split; [exact Hrl|].
    intros [|j] Hi; cbn [nth].
    + now rewrite window_count_at_0.
    + rewrite <- Hrn by lia. reflexivity.
  - assert (Hvl : length (rev r) = length bs) by (now rewrite length_rev).
    unfold set_rolled_over.
    destruct (rev r) as [|v0 vt] eqn:Ev; [simpl in Hvl; lia|].
    rewrite <- Ev in *. clear Ev v0 vt.
    eexists. split; [reflexivity|]. split.
    + rewrite length_app, removelast_firstn_len, length_firstn. simpl. lia.
    + intros i Hi.
      rewrite <- (window_count_mirror (length bs) w i) by exact Hi.
      assert (Hq : forall k,
                window_count true (length bs) w k
                             (fun j => nth (length bs - 1 - j) bs false)
                = window_count true (length bs) w k
                               (fun j => nth j (rev bs) false)).
      { intros k. apply count_ext. intros j Hj. apply in_seq in Hj.
        f_equal. rewrite rev_nth by lia. f_equal. lia. }
      rewrite Hq.
      destruct (Nat.eq_dec i (length bs - 1)) as [->|Hne].
      * rewrite app_nth2
          by (rewrite removelast_firstn_len, length_firstn; lia).
        rewrite removelast_firstn_len, length_firstn, Hvl.
        replace (length bs - 1 - Nat.min (pred (length bs)) (length bs))
          with 0 by lia.
        replace (length bs - 1 - (length bs - 1)) with 0 by lia.
        now rewrite window_count_at_0.
      * rewrite app_nth1
          by (rewrite removelast_firstn_len, length_firstn; lia).
        rewrite nth_removelast_any by lia.
        rewrite rev_nth by lia. rewrite Hrl.
        replace (length bs - S i) with (length bs - 1 - i) by lia.
        apply Hrn; lia.
Qed.

Lemma direct_counts_labels (labels : list string) (feature : string)
      (W : nat) (above : bool) :
  1 <= length labels -> W <= length labels ->
  (Z.of_nat (length labels) < 2 ^ 63)%Z ->
  direct_counts (map (fun w => String.eqb w feature) labels)
                (Z.of_nat W) above
  = Ok (direct_scan labels W above feature).
Proof.
  intros Hn HW Hs.
  destruct (direct_counts_nth (map (fun w => String.eqb w feature) labels)
              W above) as [a [Ha [Hal Han]]];
    try (rewrite length_map; assumption).
  rewrite Ha. f_equal. rewrite length_map in *.
  apply (nth_ext a (direct_scan labels W above feature) 0%Z 0%Z).
  - unfold direct_scan. now rewrite length_map, length_seq.
  - intros i Hi. rewrite Hal in Hi. rewrite Han by exact Hi.
    unfold direct_scan.
    rewrite (nth_map_seq (direct_count labels W above feature)) by exact Hi.
    unfold direct_count, window_count. cbn [Nat.add]. f_equal.
    apply count_ext. intros j Hj. apply in_seq in Hj. f_equal.
    rewrite (nth_indep _ false
               ((fun w => String.eqb w feature) EmptyString))
      by (rewrite length_map; lia).
    apply (map_nth (fun w => String.eqb w feature)).
Qed.

Lemma direct_counts_short (bs : list bool) (W : nat) (above : bool) :
  length bs < W \/ length bs = 0 ->
  direct_counts bs (Z.of_nat W) above = Raise IndexError.
Proof.
  intros H. rewrite direct_counts_eq. unfold rolled_sums, np_put_zeros.
  rewrite Nat2Z.id, np_roll_length, cumsum64_length, length_map.
  assert (Hsl : length (stride above bs) = length bs)
    by (destruct above; [reflexivity | apply length_rev]).
  rewrite Hsl.
  destruct (Nat.leb_spec W (length bs)) as [Hle|Hgt]; [|reflexivity].
  assert (Hb : bs = []) by (apply length_zero_iff_nil; lia). subst bs.
  assert (HW : W = 0) by (simpl in Hle; lia). subst W.
  destruct above; reflexivity.
Qed.

(** X11. The direct calculation of [spot_check] (its [array1]: running
    totals, rolled by the window size, differences, rolled by one place)
    is the sliding-window count whenever it returns: for the words of a
    non-empty company and a window size from 0 to the number of those
    words it gives, for each position, the number of positions within the
    window, in the given direction, whose word is the feature; for a
    larger window size, or a company without words, it raises
    [IndexError]. *)
Theorem direct_counts_scan (labels : list string) (feature : string)
        (W : nat) (above : bool) :
  (Z.of_nat (length labels) < 2 ^ 63)%Z ->
  direct_counts (map (fun w => String.eqb w feature) labels)
                (Z.of_nat W) above
  = if (1 <=? length labels) && (W <=? length labels)
    then Ok (direct_scan labels W above feature)
    else Raise IndexError.
Proof.
  intros Hs.
  destruct (Nat.leb_spec 1 (length labels)) as [Hn|Hn];
    destruct (Nat.leb_spec W (length labels)) as [HW|HW]; cbn [andb].
  - now apply direct_counts_labels.
  - apply direct_counts_short. rewrite length_map. now left.
  - apply direct_counts_short. rewrite length_map. right. lia.
  - apply direct_counts_short. rewrite length_map. now left.
Qed.

Lemma direct_counts_scan_witness :
  (Z.of_nat (length sample_words) < 2 ^ 63)%Z
  /\ direct_counts
       (map (fun w => String.eqb w (nth 0 sample_cats EmptyString))
            sample_words) (Z.of_nat 2) false
     = Ok [0; 1; 1; 0]%Z
  /\ direct_counts
       (map (fun w => String.eqb w (nth 0 sample_cats EmptyString))
            sample_words) (Z.of_nat 5) false
     = Raise IndexError.
Proof.
  split; [reflexivity|].
  split.
  - rewrite (direct_counts_scan sample_words (nth 0 sample_cats EmptyString)
               2 false) by reflexivity.
    reflexivity.
  - rewrite (direct_counts_scan sample_words (nth 0 sample_cats EmptyString)
               5 false) by reflexivity.
    reflexivity.
Defined.

(** ** [spot_check] on the extracted features *)

Lemma py_index_NoDup (l : list string) (s c : nat) :
  NoDup l -> c < length l ->
  py_index l s (nth c l EmptyString) = Ok (s + c).
Proof.
  intros Hnd. revert s c.
  induction Hnd as [|x t Hx Hnd IH]; intros s c Hc; [simpl in Hc; lia|].
  cbn [py_index]. destruct c as [|c']; cbn [nth].
  - rewrite String.eqb_refl. f_equal. lia.
  - simpl in Hc.
    destruct (String.eqb_spec x (nth c' t EmptyString)) as [He|_].
    + exfalso. apply Hx. rewrite He. apply nth_In. lia.
    + rewrite IH by lia. f_equal. lia.
Qed.

Lemma restrict_length_le {A : Type} (company : list string) (g : string)
      (xs : list A) :
  length (restrict company g xs) <= length company.
Proof.
  unfold restrict. rewrite length_map.
  etransitivity; [apply filter_length_le|].
  rewrite length_combine. lia.
Qed.

Lemma restrict_nonempty (company : list string) (g : string)
      (words : list string) :
  length words = length company -> In g company ->
  1 <= length (restrict company g words).
Proof.
  revert words. induction company as [|x t IH]; intros words Hlen Hin;
    [destruct Hin|].
  destruct words as [|w ws]; [discriminate|].
  simpl in Hlen. injection Hlen as Hlen.
  unfold restrict in *. cbn [combine filter fst].
  destruct (String.eqb_spec x g) as [->|Hne]; [simpl; lia|].
  destruct Hin as [He|Hin]; [congruence|]. now apply IH.
Qed.

(** The column of the output for one category and direction, restricted
    to a company, is the direct scan of the words of that company. *)
Lemma restricted_feature_column (cats words company : list string) (W : nat)
      (g : string) (c : nat) (earlier : bool) :
  length company = length words ->
  contiguous company ->
  NoDup cats ->
  In g company ->
  c < length cats ->
  restrict company g
           (column (csr_of_dense (length words) (length cats + length cats)
                                 (feature_entry cats words company W))
                   (feature_column (length cats) earlier c))
  = direct_scan (restrict company g words) W earlier (nth c cats EmptyString).
Proof.
  intros Hlen Hcont Hnd Hin Hc.
  destruct (group_interval company g Hcont Hin) as [a [len [Hl [Hb Hf]]]].
  set (X := csr_of_dense _ _ _).
  assert (HX : nrows X = length company) by (now rewrite Hlen).
  rewrite (restrict_positions 0%Z company g (column X _))
    by (unfold column; now rewrite length_map, length_seq).
  rewrite (restrict_positions EmptyString company g words) by (now symmetry).
  rewrite (filter_interval _ a len (length company) Hb Hf).
  unfold direct_scan. rewrite length_map, length_seq.
  rewrite (seq_from a len) at 1. rewrite map_map.
  apply map_ext_in. intros k Hk. apply in_seq in Hk.
  rewrite column_nth by lia. unfold X.
  rewrite features_entry
    by (try lia; unfold feature_column; destruct earlier; lia).
  rewrite feature_entry_column, window_sum_encoded by (assumption || lia).
  unfold direct_count. rewrite length_map, length_seq. f_equal.
  rewrite <- Hlen.
  rewrite (window_count_group words company g (nth c cats EmptyString)
             earlier W a len k) by (assumption || lia).
  apply count_ext. intros j Hj. apply in_seq in Hj.
  rewrite (nth_map_seq (fun j => nth j words EmptyString)) by lia.
  reflexivity.
Qed.

Lemma column_col_slice (m : csr_matrix) (lo hi c : nat) :
  c < hi - lo -> column (col_slice m lo hi) c = column m (lo + c).
Proof.
  intros Hc. unfold column, col_slice.
  change (nrows (csr_of_dense ?n ?k ?f)) with n.
  apply map_ext_in. intros i Hi. apply in_seq in Hi.
  rewrite csr_get_of_dense by lia.
  destruct (Nat.ltb_spec c (hi - lo)); [reflexivity | lia].
Qed.

Lemma not_matching_same (a : list Z) :
  map (fun p => negb (fst p =? snd p)%Z) (combine a a)
  = map (fun _ => false) a.
Proof.
  induction a as [|x t IH]; [reflexivity|].
  cbn [combine map fst snd]. now rewrite Z.eqb_refl, IH.
Qed.


(** The rows that a company's mask selects are rows of a matrix with a
    row for each token, and their entries in a column are the column
    restricted to the company. *)
Lemma masked_rows_in_range (company : list string) (g : string) (n : nat) :
  length company <= n ->
  forallb (fun j => j <? n)
          (filter (fun j => String.eqb (nth j company EmptyString) g)
                  (seq 0 (length company))) = true.
Proof.
  intros Hn. apply forallb_forall. intros j Hj.
  apply filter_In in Hj. destruct Hj as [Hj _]. apply in_seq in Hj.
  apply Nat.ltb_lt. lia.
Qed.

Lemma masked_rows_column (m : csr_matrix) (company : list string)
      (g : string) (c : nat) :
  nrows m = length company ->
  map (fun j => csr_get m j c)
      (filter (fun j => String.eqb (nth j company EmptyString) g)
              (seq 0 (length company)))
  = restrict company g (column m c).
Proof.
  intros Hrows.
  rewrite (restrict_positions 0%Z)
    by (unfold column; rewrite length_map, length_seq; exact Hrows).
  apply map_ext_in. intros j Hj.
  apply filter_In in Hj. destruct Hj as [Hj _]. apply in_seq in Hj.
  symmetry. apply column_nth. lia.
Qed.

Lemma spot_check_features (cats words company : list string) (W : nat)
      (g : string) (c : nat) (above : bool) :
  length company = length words ->
  contiguous company ->
  NoDup cats ->
  In g company ->
  c < length cats ->
  W <= length (restrict company g words) ->
  (Z.of_nat (length words) < 2 ^ 63)%Z ->
  spot_check
    (col_slice (csr_of_dense (length words) (length cats + length cats)
                             (feature_entry cats words company W))
               (if above then 0 else length cats)
               (if above then length cats else length cats + length cats))
    words company cats (Z.of_nat W) above g (nth c cats EmptyString)
  = Ok (direct_scan (restrict company g words) W above
                    (nth c cats EmptyString),
        direct_scan (restrict company g words) W above
                    (nth c cats EmptyString),
        map (fun _ => false)
            (direct_scan (restrict company g words) W above
                         (nth c cats EmptyString))).
Proof.
  intros Hlen Hcont Hnd Hin Hc HW Hs.
  unfold spot_check, bool_index.
  rewrite <- Hlen, Nat.eqb_refl. cbn [bind].
  pose proof (restrict_nonempty company g words (eq_sym Hlen) Hin) as Hne.
  pose proof (restrict_length_le company g words) as Hle.
  rewrite direct_counts_labels by (try assumption; lia). cbn [bind].
  rewrite py_index_NoDup by assumption. cbn [bind Nat.add].
  change (nrows (col_slice ?m ?lo ?hi)) with (nrows m).
  change (nrows (csr_of_dense ?n ?k ?f)) with n.
  change (ncols (col_slice ?m ?lo ?hi)) with (hi - lo).
  rewrite masked_rows_in_range by lia.
  replace (c <? (if above then length cats else length cats + length cats)
                - (if above then 0 else length cats)) with true
    by (symmetry; apply Nat.ltb_lt; destruct above; lia).
  cbn [andb].
  rewrite masked_rows_column by reflexivity. rewrite Hlen.
  rewrite column_col_slice by (destruct above; lia).
  replace ((if above then 0 else length cats) + c)
    with (feature_column (length cats) above c)
    by (unfold feature_column; destruct above; reflexivity).
  rewrite restricted_feature_column by assumption.
  now rewrite not_matching_same.
Qed.

(** X12. On the output of the extraction [spot_check] finds no
    mismatch: for a stream whose companies form contiguous runs, a
    duplicate-free vocabulary, a company of the stream, a category, and a
    window size that does not exceed the number of words of the company,
    its direct calculation and the column of the matching half of the
    output ([X[:, :K]] for the counts above, [X[:, K:]] for the counts
    below) are the same array, and no entry is reported as not
    matching. *)
Theorem spot_check_passes (cats words company : list string) (W : nat)
        (g : string) (c : nat) (above : bool) :
  length company = length words ->
  contiguous company ->
  NoDup cats ->
  In g company ->
  c < length cats ->
  W <= length (restrict company g words) ->
  (Z.of_nat (length words) < 2 ^ 63)%Z ->
  exists X array,
    features cats words company (Z.of_nat W) = Ok X
    /\ spot_check
         (col_slice X (if above then 0 else length cats)
                    (if above then length cats
                     else length cats + length cats))
         words company cats (Z.of_nat W) above g (nth c cats EmptyString)
       = Ok (array, array, map (fun _ => false) array)
    /\ length array = length (restrict company g words).
Proof.
  intros Hlen Hcont Hnd Hin Hc HW Hs.
  assert (Hn : 0 < length words).
  { rewrite <- Hlen. destruct company; [destruct Hin | simpl; lia]. }
  do 2 eexists.
  split; [apply features_spec; assumption || lia|].
  rewrite Nat2Z.id.
  split; [now apply spot_check_features|].
  unfold direct_scan. now rewrite length_map, length_seq.
Qed.

Lemma spot_check_passes_witness :
  length two_company = length two_words
  /\ contiguous two_company
  /\ NoDup sample_cats
  /\ In (nth 3 two_company EmptyString) two_company
  /\ 1 < length sample_cats
  /\ 3 <= length (restrict two_company (nth 3 two_company EmptyString)
                           two_words)
  /\ (Z.of_nat (length two_words) < 2 ^ 63)%Z
  /\ exists X array,
       features sample_cats two_words two_company (Z.of_nat 3) = Ok X
       /\ spot_check
            (col_slice X (length sample_cats)
                       (length sample_cats + length sample_cats))
            two_words two_company sample_cats (Z.of_nat 3) false
            (nth 3 two_company EmptyString) (nth 1 sample_cats EmptyString)
          = Ok (array, array, map (fun _ => false) array)
       /\ length array
          = length (restrict two_company (nth 3 two_company EmptyString)
                             two_words).
Proof.
  assert (Hc : contiguous two_company)
    by (apply contiguousb_sound; reflexivity).
  assert (Hd : NoDup sample_cats)
    by (repeat constructor; simpl; intuition discriminate).
  assert (Hg : In (nth 3 two_company EmptyString) two_company)
    by (simpl; auto).
  split; [reflexivity|]. split; [exact Hc|]. split; [exact Hd|].
  split; [exact Hg|]. split; [simpl; lia|]. split; [simpl; lia|].
  split; [reflexivity|].
  apply (spot_check_passes sample_cats two_words two_company 3
           (nth 3 two_company EmptyString) 1 false);
    [reflexivity | exact Hc | exact Hd | exact Hg | simpl; lia | simpl; lia
     | reflexivity].
Defined.

(** X13. [spot_check] cannot check a window larger than the sampled
    company: when the company has fewer words than the window size, or no
    word at all (a name that is not in the company vector), it raises
    [IndexError], whatever the matrix and the features. *)
Theorem spot_check_window_too_large (sparse : csr_matrix)
        (word_vector company_vector features : list string) (W : nat)
        (above : bool) (company feature : string) :
  length word_vector = length company_vector ->
  length (restrict company_vector company word_vector) < W
  \/ length (restrict company_vector company word_vector) = 0 ->
  spot_check sparse word_vector company_vector features (Z.of_nat W) above
             company feature
  = Raise IndexError.
Proof.
  intros Hlen H. unfold spot_check, bool_index.
  rewrite Hlen, Nat.eqb_refl. cbn [bind].
  rewrite direct_counts_short by (now rewrite length_map).
  reflexivity.
Qed.

Lemma spot_check_window_too_large_witness :
  length two_words = length two_company
  /\ (length (restrict two_company (nth 0 two_company EmptyString) two_words)
      < 5
      \/ length (restrict two_company (nth 0 two_company EmptyString)
                          two_words) = 0)
  /\ spot_check two_onehot two_words two_company sample_cats (Z.of_nat 5)
                true (nth 0 two_company EmptyString)
                (nth 0 sample_cats EmptyString)
     = Raise IndexError.
Proof.
  split; [reflexivity|]. split; [left; simpl; lia|].
  apply (spot_check_window_too_large two_onehot two_words two_company
           sample_cats 5 true);
    [reflexivity | left; simpl; lia].
Defined.



(** ** Companies that are not contiguous *)



(** ** Shifts in the rotated comparison *)

Lemma np_roll_period {A : Type} (v : list A) (s : Z) :
  np_roll v (s + Z.of_nat (length v)) = np_roll v s.
Proof.
  destruct v as [|x t]; [reflexivity|].
  rewrite !np_roll_eq by (simpl; lia).
  replace ((s + Z.of_nat (length (x :: t))) mod Z.of_nat (length (x :: t)))%Z
    with (s mod Z.of_nat (length (x :: t)))%Z; [reflexivity|].
  rewrite <- (Z_mod_plus_full s 1 (Z.of_nat (length (x :: t)))).
  now rewrite Z.mul_1_l.
Qed.

Lemma np_roll_0 {A : Type} (v : list A) : np_roll v 0 = v.
Proof.
  destruct v as [|x t]; [reflexivity|].
  rewrite np_roll_eq by (simpl; lia).
  rewrite Zmod_0_l. cbn [Z.to_nat]. rewrite Nat.sub_0_r.
  rewrite skipn_all, firstn_all. reflexivity.
Qed.

(** X16. The mask of [is_same_after_shift] depends on the shift only
    modulo the length of the vector, and a shift of 0, hence of any
    multiple of the length, compares every token with itself: all
    entries are 1. *)
Theorem is_same_after_shift_period (v : list string) (s : Z) (k : nat) :
  is_same_after_shift v (s + Z.of_nat (length v)) = is_same_after_shift v s
  /\ is_same_after_shift v (Z.of_nat (k * length v))
     = repeat 1%Z (length v).
Proof.
  split.
  - unfold is_same_after_shift. now rewrite np_roll_period.
  - induction k as [|k IH].
    + cbn [Nat.mul Z.of_nat]. unfold is_same_after_shift.
      rewrite np_roll_0. induction v as [|x t IHv]; [reflexivity|].
      cbn [combine map fst snd length repeat].
      now rewrite String.eqb_refl, IHv.
    + rewrite <- IH.
      replace (Z.of_nat (S k * length v))
        with (Z.of_nat (k * length v) + Z.of_nat (length v))%Z by lia.
      unfold is_same_after_shift. now rewrite np_roll_period.
Qed.
